(** * tuon-live-transcribe: the realtime transcription gateway

    A shallow embedding of the WebSocket session bridge
    ([src/app/api/ws/transcriptions/route.ts] and the standalone server
    that repeats it), of the upstream connector and credential minter
    ([lib/openai]: [mintEphemeralToken], [openOpenAIRealtime]) and of the
    heartbeat sweep, followed by the properties the specification states
    about them.

    The program is event driven.  Every callback the source registers is
    a function on an explicit session state; the state records the calls
    the program makes on its collaborators ([client.send],
    [upstream.send], [close], [ping], [terminate], [fetch], [console]).
    The events are what the [ws] transport and the network deliver. *)

From Stdlib Require Import ZArith String Ascii List Bool Lia.
From stdpp Require Import base tactics option list strings.

Set Default Proof Using "Type".
Set Warnings "-register-all".
Local Open Scope string_scope.
Local Open Scope list_scope.

(* ===================================================================== *)
(** ** JavaScript values as the handlers see them *)
(* ===================================================================== *)

(** What [JSON.parse] returns.  A number is kept as a decimal
    [mantissa * 10 ^ exp10]; the handlers only ever test a number for
    truthiness.  The rounding of a literal to a double is not modelled,
    nor is the [Infinity] that a literal out of the range of a double
    (1e999) becomes, which is truthy and which [JSON.stringify] writes as
    [null]: a number that the bridge passes on is recorded as it was
    written. *)
Inductive json : Type :=
| JNull
| JBool (b : bool)
| JNum (mantissa exp10 : Z)
| JStr (s : string)
| JArr (items : list json)
| JObj (members : list (string * json)).

(** An expression that may be [undefined] is an [option json]. *)
Definition undefined : option json := None.

(** Only [.message] is ever read from a caught exception. *)
Record JsError : Type := Error { message : string }.

Inductive Outcome (A : Type) : Type :=
| Return (a : A)
| Throw (e : JsError).
Arguments Return {A} a.
Arguments Throw {A} e.

Definition bind {A B} (o : Outcome A) (k : A -> Outcome B) : Outcome B :=
  match o with
  | Return a => k a
  | Throw e => Throw e
  end.

Module JS.

(** [obj.k] on a parsed object: with a repeated key the last one wins,
    as in [JSON.parse]. *)
Fixpoint lookup_member (k : string) (ms : list (string * json)) : option json :=
  match ms with
  | [] => None
  | (k', v) :: rest =>
      match lookup_member k rest with
      | Some w => Some w
      | None => if String.eqb k k' then Some v else None
      end
  end.

(** The message V8 gives the [TypeError] of a property read on
    [null] or [undefined]. *)
Definition TypeError (base k : string) : JsError :=
  Error ("Cannot read properties of " +:+ base +:+ " (reading '" +:+ k +:+ "')").

(** [v.k].  The names this program reads ([action], [lang], [model],
    [type], [delta], [transcript], [item_id], [error], [message],
    [client_secret], [value]) are properties of no primitive wrapper,
    array or [Object.prototype], so on anything but an object the read
    gives [undefined]; on [null] and [undefined] it throws. *)
Definition member (v : option json) (k : string) : Outcome (option json) :=
  match v with
  | None => Throw (TypeError "undefined" k)
  | Some JNull => Throw (TypeError "null" k)
  | Some (JObj ms) => Return (lookup_member k ms)
  | Some _ => Return undefined
  end.

(** [v.k] where an earlier read of [v] has already succeeded, so that
    [v] is neither [null] nor [undefined] and the read cannot throw. *)
Definition read (v : json) (k : string) : option json :=
  match member (Some v) k with
  | Return x => x
  | Throw _ => undefined
  end.

(** [v?.k] *)
Definition opt_member (v : option json) (k : string) : option json :=
  match v with
  | None | Some JNull => undefined
  | Some v' => read v' k
  end.

(** ToBoolean. *)
Definition truthy (v : option json) : bool :=
  match v with
  | None | Some JNull => false
  | Some (JBool b) => b
  | Some (JNum m _) => negb (m =? 0)%Z
  | Some (JStr s) => negb (String.eqb s "")
  | Some (JArr _) | Some (JObj _) => true
  end.

(** [a || b] *)
Definition or (a b : option json) : option json :=
  if truthy a then a else b.

(** [v === 'lit'] *)
Definition is_string (v : option json) (lit : string) : bool :=
  match v with
  | Some (JStr s) => String.eqb s lit
  | _ => false
  end.

(** The value [JSON.stringify] writes for an object literal: a
    property whose value is [undefined] is left out. *)
Fixpoint object (fields : list (string * option json)) : json :=
  match fields with
  | [] => JObj []
  | (k, Some v) :: rest =>
      match object rest with
      | JObj ms => JObj ((k, v) :: ms)
      | other => other
      end
  | (_, None) :: rest => object rest
  end.

(** A string-valued environment variable or header as a value. *)
Definition of_env (e : option string) : option json := JStr <$> e.

End JS.

Infix "|||" := JS.or (at level 50, left associativity).

(* ===================================================================== *)
(** ** [Buffer.toString('base64')] *)
(* ===================================================================== *)

Module Base64.

Definition alphabet : string :=
  "ABCDEFGHIJKLMNOPQRSTUVWXYZabcdefghijklmnopqrstuvwxyz0123456789+/".

Definition sextet (n : N) : ascii :=
  match String.get (N.to_nat n) alphabet with
  | Some c => c
  | None => "="%char
  end.

Definition pad : ascii := "="%char.

Fixpoint encode_bytes (bs : list N) : list ascii :=
  match bs with
  | [] => []
  | [a] =>
      [sextet (a / 4); sextet ((a mod 4) * 16); pad; pad]%N
  | [a; b] =>
      [sextet (a / 4); sextet ((a mod 4) * 16 + b / 16);
       sextet ((b mod 16) * 4); pad]%N
  | a :: b :: c :: rest =>
      [sextet (a / 4); sextet ((a mod 4) * 16 + b / 16);
       sextet ((b mod 16) * 4 + c / 64); sextet (c mod 64)]%N
        ++ encode_bytes rest
  end.

Definition encode (buf : string) : string :=
  string_of_list_ascii
    (encode_bytes (map N_of_ascii (list_ascii_of_string buf))).

End Base64.

(* ===================================================================== *)
(** ** A reference [JSON.parse] *)
(* ===================================================================== *)

(** The session bridge is stated over an arbitrary parser (see
    [Section Gateway]); this recursive-descent reader of the JSON grammar
    runs the model on concrete payloads.  [None] stands for the
    [SyntaxError] that [JSON.parse] throws, whose fields the handlers
    never read.  A number is read exactly: the rounding of a JavaScript
    number (an underflow to zero, say) is not part of this reader. *)
Module Parser.

Local Open Scope char_scope.

(** The double quote. *)
Definition quote : ascii := "034".

Definition is_ws (c : ascii) : bool :=
  Ascii.eqb c " " || Ascii.eqb c "009" || Ascii.eqb c "010" || Ascii.eqb c "013".

Fixpoint skip_ws (l : list ascii) : list ascii :=
  match l with
  | c :: rest => if is_ws c then skip_ws rest else l
  | [] => []
  end.

Definition digit (c : ascii) : option Z :=
  let n := nat_of_ascii c in
  if (48 <=? n)%nat && (n <=? 57)%nat then Some (Z.of_nat (n - 48)) else None.

Definition hex (c : ascii) : option N :=
  let n := N_of_ascii c in
  if (48 <=? n)%N && (n <=? 57)%N then Some (n - 48)%N
  else if (65 <=? n)%N && (n <=? 70)%N then Some (n - 55)%N
  else if (97 <=? n)%N && (n <=? 102)%N then Some (n - 87)%N
  else None.

(** A run of digits: its value appended to [acc], how many there
    were, and what follows. *)
Fixpoint digits (acc : Z) (count : nat) (l : list ascii) : Z * nat * list ascii :=
  match l with
  | c :: rest =>
      match digit c with
      | Some d => digits (acc * 10 + d) (S count) rest
      | None => (acc, count, l)
      end
  | [] => (acc, count, [])
  end.

(** [int frac? exp?] after the optional sign. *)
Definition unsigned_number (l : list ascii) : option (Z * Z * list ascii) :=
  let '(i, ni, after_int) := digits 0 0 l in
  let leading_zero :=
    match l with
    | c :: _ => Ascii.eqb c "0" && (1 <? ni)%nat
    | [] => false
    end in
  if (ni =? 0)%nat || leading_zero then None else
  let with_frac :=
    match after_int with
    | "." :: fl =>
        let '(m, nf, after_frac) := digits i 0 fl in
        if (nf =? 0)%nat then None else Some (m, (- Z.of_nat nf)%Z, after_frac)
    | _ => Some (i, 0%Z, after_int)
    end in
  match with_frac with
  | None => None
  | Some (m, e, after) =>
      let exponent (neg : bool) (el : list ascii) :=
        let '(x, nx, after_exp) := digits 0 0 el in
        if (nx =? 0)%nat then None
        else Some (m, (e + (if neg then - x else x))%Z, after_exp) in
      match after with
      | c :: el =>
          if Ascii.eqb c "e" || Ascii.eqb c "E" then
            match el with
            | "+" :: el' => exponent false el'
            | "-" :: el' => exponent true el'
            | _ => exponent false el
            end
          else Some (m, e, after)
      | [] => Some (m, e, after)
      end
  end.

Definition number (l : list ascii) : option (json * list ascii) :=
  match l with
  | "-" :: rest =>
      match unsigned_number rest with
      | Some (m, e, after) => Some (JNum (- m) e, after)
      | None => None
      end
  | _ =>
      match unsigned_number l with
      | Some (m, e, after) => Some (JNum m e, after)
      | None => None
      end
  end.

(** The UTF-8 bytes of a [\uXXXX] escape (surrogate halves are
    encoded one by one). *)
Definition utf8 (cp : N) : list ascii :=
  if (cp <? 128)%N then [ascii_of_N cp]
  else if (cp <? 2048)%N then
    [ascii_of_N (192 + cp / 64); ascii_of_N (128 + cp mod 64)]%N
  else
    [ascii_of_N (224 + cp / 4096); ascii_of_N (128 + (cp / 64) mod 64);
     ascii_of_N (128 + cp mod 64)]%N.

Definition escape (c : ascii) : option ascii :=
  if Ascii.eqb c quote then Some quote
  else if Ascii.eqb c "\" then Some "\"
  else if Ascii.eqb c "/" then Some "/"
  else if Ascii.eqb c "b" then Some "008"
  else if Ascii.eqb c "f" then Some "012"
  else if Ascii.eqb c "n" then Some "010"
  else if Ascii.eqb c "r" then Some "013"
  else if Ascii.eqb c "t" then Some "009"
  else None.

(** The characters after an opening quote, up to the closing one;
    [acc] holds what was read, last first. *)
Fixpoint string_body (acc : list ascii) (l : list ascii) : option (string * list ascii) :=
  match l with
  | [] => None
  | c :: rest =>
      if Ascii.eqb c quote then Some (string_of_list_ascii (rev acc), rest)
      else if Ascii.eqb c "\" then
        match rest with
        | [] => None
        | e :: rest1 =>
            if Ascii.eqb e "u" then
              match rest1 with
              | h1 :: h2 :: h3 :: h4 :: rest2 =>
                  match hex h1, hex h2, hex h3, hex h4 with
                  | Some a, Some b, Some c', Some d =>
                      string_body
                        (rev (utf8 (((a * 16 + b) * 16 + c') * 16 + d)%N) ++ acc)
                        rest2
                  | _, _, _, _ => None
                  end
              | _ => None
              end
            else
              match escape e with
              | Some x => string_body (x :: acc) rest1
              | None => None
              end
        end
      else if (N_of_ascii c <? 32)%N then None
      else string_body (c :: acc) rest
  end.

Fixpoint literal (word : list ascii) (l : list ascii) : option (list ascii) :=
  match word, l with
  | [], _ => Some l
  | w :: word', c :: rest => if Ascii.eqb w c then literal word' rest else None
  | _ :: _, [] => None
  end.

Definition keyword (word : string) (v : json) (l : list ascii) : option (json * list ascii) :=
  match literal (list_ascii_of_string word) l with
  | Some rest => Some (v, rest)
  | None => None
  end.

(** [value], the tail of an array after an element, and the tail of
    an object after a member; [fuel] bounds the nesting of calls. *)
Fixpoint value (fuel : nat) (l : list ascii) : option (json * list ascii) :=
  match fuel with
  | O => None
  | S fuel =>
      match skip_ws l with
      | [] => None
      | c :: rest =>
          if Ascii.eqb c "n" then keyword "null" JNull (c :: rest)
          else if Ascii.eqb c "t" then keyword "true" (JBool true) (c :: rest)
          else if Ascii.eqb c "f" then keyword "false" (JBool false) (c :: rest)
          else if Ascii.eqb c quote then
            match string_body [] rest with
            | Some (s, after) => Some (JStr s, after)
            | None => None
            end
          else if Ascii.eqb c "[" then
            match skip_ws rest with
            | "]" :: after => Some (JArr [], after)
            | _ =>
                match elements fuel rest with
                | Some (items, after) => Some (JArr items, after)
                | None => None
                end
            end
          else if Ascii.eqb c "{" then
            match skip_ws rest with
            | "}" :: after => Some (JObj [], after)
            | _ =>
                match members fuel rest with
                | Some (ms, after) => Some (JObj ms, after)
                | None => None
                end
            end
          else number (c :: rest)
      end
  end
with elements (fuel : nat) (l : list ascii) : option (list json * list ascii) :=
  match fuel with
  | O => None
  | S fuel =>
      match value fuel l with
      | None => None
      | Some (v, after) =>
          match skip_ws after with
          | "]" :: after' => Some ([v], after')
          | "," :: after' =>
              match elements fuel after' with
              | Some (vs, after'') => Some (v :: vs, after'')
              | None => None
              end
          | _ => None
          end
      end
  end
with members (fuel : nat) (l : list ascii) : option (list (string * json) * list ascii) :=
  match fuel with
  | O => None
  | S fuel =>
      match skip_ws l with
      | c :: rest =>
          if negb (Ascii.eqb c quote) then None else
          match string_body [] rest with
          | None => None
          | Some (k, after_key) =>
              match skip_ws after_key with
              | ":" :: after_colon =>
                  match value fuel after_colon with
                  | None => None
                  | Some (v, after) =>
                      match skip_ws after with
                      | "}" :: after' => Some ([(k, v)], after')
                      | "," :: after' =>
                          match members fuel after' with
                          | Some (ms, after'') => Some ((k, v) :: ms, after'')
                          | None => None
                          end
                      | _ => None
                      end
                  end
              | _ => None
              end
          end
      | [] => None
      end
  end.

Definition parse (text : string) : option json :=
  let l := list_ascii_of_string text in
  match value (2 * length l + 2) l with
  | Some (v, rest) =>
      match skip_ws rest with
      | [] => Some v
      | _ :: _ => None
      end
  | None => None
  end.

End Parser.

(* ===================================================================== *)
(** ** Sockets and the session state *)
(* ===================================================================== *)

(** [WebSocket.readyState] *)
Inductive ReadyState : Type := CONNECTING | OPEN | CLOSING | CLOSED.

#[global] Instance ReadyState_eq_dec : EqDecision ReadyState.
Proof. solve_decision. Defined.

(** The argument of the client's ['message'] listener,
    [message: Buffer | string].  A [Buffer] is its bytes; [toString()]
    reads them as text. *)
Inductive Message : Type :=
| Str (text : string)
| Buf (bytes : string).

Definition toString (m : Message) : string :=
  match m with
  | Str text => text
  | Buf bytes => bytes
  end.

(** The argument of [client.send]: [JSON.stringify(v)] or a text passed
    on as it came. *)
Inductive ClientPayload : Type :=
| Json (v : json)
| Text (data : string).

(** The closures registered with [on] on an upstream socket: three by
    [openOpenAIRealtime], which close over the promise of the start that
    created the socket, and four by the session bridge. *)
Inductive EventName : Type := open_ | message_ | error_ | close_.

#[global] Instance EventName_eq_dec : EqDecision EventName.
Proof. solve_decision. Defined.

Inductive Listener : Type :=
| Connector_open (promise : nat)
| Connector_error (promise : nat)
| Connector_close
| Bridge_open
| Bridge_message
| Bridge_close
| Bridge_error.

(** What the [ws] transport emits on an upstream socket. *)
Inductive UpstreamEvent : Type :=
| U_open
| U_message (data : string)
| U_error (err : JsError)
| U_close (code : Z) (reason : string).

Definition event_name (ev : UpstreamEvent) : EventName :=
  match ev with
  | U_open => open_
  | U_message _ => message_
  | U_error _ => error_
  | U_close _ _ => close_
  end.

(** The lines written with [console.log], [console.warn] and
    [console.error], one constructor per call site, holding the values
    the call interpolates.  [L_] lines are the bridge's ("[WebSocket]"),
    [Lib_] lines the connector's and the minter's ("[OpenAI Lib]"). *)
Inductive LogLine : Type :=
| L_ClientConnected (ip : string)
| L_ReceivedJSON (ip : string) (msg : json)
| L_StartExisting (ip : string)
| L_Starting (ip : string) (lang model : option json)
| L_Minting (ip : string)
| L_TokenMinted (ip : string)
| L_OpeningUpstream (ip : string)
| L_UpstreamEstablished (ip : string)
| L_UpstreamOpened (ip : string)
| L_OpenAIMessage (ip : string) (type : option json)
| L_AudioCommitted (ip : string) (item_id : option json)
| L_OpenAIError (ip : string) (msg : json)
| L_NonJSONFromOpenAI (ip : string) (head : string)
| L_UpstreamClosed (ip : string) (code : Z)
| L_UpstreamError (ip : string) (err : JsError)
| L_SetupError (ip : string) (err : JsError)
| L_InvalidJSON (ip : string) (head : string)
| L_InvalidMessage (ip : string) (head : string)
| L_ClientDisconnected (ip : string) (code : Z)
| L_ClientError (ip : string) (err : JsError)
| L_TerminatingDead
| Lib_Minting (model : option json)
| Lib_MintStatus (status : Z) (body : string)
| Lib_Minted
| Lib_MintFailed (err : JsError)
| Lib_Opening
| Lib_Opened
| Lib_SentConfig
| Lib_ConnectionError (err : JsError)
| Lib_Closed (code : Z) (reason : string).

(** An upstream [WebSocket] made by [openOpenAIRealtime]. *)
Record Socket : Type := mkSocket {
  readyState : ReadyState;
  token : option json;                       (* Authorization: Bearer ${token} *)
  sent : list json;                          (* ws.send(JSON.stringify(v)) *)
  listeners : list (EventName * Listener);   (* in the order of registration *)
  closes : nat                               (* calls of close() *)
}.

(** The client's [CustomWebSocket]. *)
Record Client : Type := mkClient {
  isAlive : bool;
  client_readyState : ReadyState;
  upstream : option nat;                     (* client.upstream, a reference into [sockets] *)
  client_sent : list ClientPayload;          (* client.send(...) *)
  pings : nat;                               (* calls of ping() *)
  client_closes : nat;                       (* calls of close() *)
  terminated : bool                          (* terminate() was called *)
}.

(** A run of the start branch of the ['message'] listener.  The
    listener is [async]: it stops at [await mintEphemeralToken(model)]
    and at [await openOpenAIRealtime(token)] and goes on when the promise
    settles.  [lang] and [model] are not read after the first [await],
    so a suspended run keeps neither. *)
Inductive Task : Type :=
| AwaitMint                  (* the fetch of mintEphemeralToken is in flight *)
| AwaitOpen (u : nat)        (* the promise of openOpenAIRealtime is pending on socket [u] *)
| Resolved (u : nat)         (* resolve(ws) was called; the continuation is a queued microtask *)
| Rejected (err : JsError)   (* reject(err) was called; the catch is a queued microtask *)
| Established (u : nat)      (* the run reached the end of the try block *)
| Failed.                    (* the run left through the setup catch *)

Record Session : Type := mkSession {
  clientIp : string;
  client : Client;
  sockets : list Socket;       (* every upstream socket made so far *)
  tasks : list Task;           (* every run of the start branch so far *)
  microtasks : list nat;       (* runs whose promise settled during this event *)
  requests : list json;        (* bodies POSTed to /v1/realtime/sessions *)
  console : list LogLine
}.

(** *** Field updates *)

Definition with_client (f : Client -> Client) (s : Session) : Session :=
  mkSession (clientIp s) (f (client s)) (sockets s) (tasks s) (microtasks s)
            (requests s) (console s).

Definition with_sockets (f : list Socket -> list Socket) (s : Session) : Session :=
  mkSession (clientIp s) (client s) (f (sockets s)) (tasks s) (microtasks s)
            (requests s) (console s).

Definition with_tasks (f : list Task -> list Task) (s : Session) : Session :=
  mkSession (clientIp s) (client s) (sockets s) (f (tasks s)) (microtasks s)
            (requests s) (console s).

Definition with_microtasks (f : list nat -> list nat) (s : Session) : Session :=
  mkSession (clientIp s) (client s) (sockets s) (tasks s) (f (microtasks s))
            (requests s) (console s).

Definition with_requests (f : list json -> list json) (s : Session) : Session :=
  mkSession (clientIp s) (client s) (sockets s) (tasks s) (microtasks s)
            (f (requests s)) (console s).

(** [console.log] / [warn] / [error] *)
Definition log (l : LogLine) (s : Session) : Session :=
  mkSession (clientIp s) (client s) (sockets s) (tasks s) (microtasks s)
            (requests s) (console s ++ [l]).

Definition set_isAlive (b : bool) (c : Client) : Client :=
  mkClient b (client_readyState c) (upstream c) (client_sent c) (pings c)
           (client_closes c) (terminated c).

Definition set_client_readyState (r : ReadyState) (c : Client) : Client :=
  mkClient (isAlive c) r (upstream c) (client_sent c) (pings c)
           (client_closes c) (terminated c).

Definition set_upstream (u : option nat) (c : Client) : Client :=
  mkClient (isAlive c) (client_readyState c) u (client_sent c) (pings c)
           (client_closes c) (terminated c).

Definition set_readyState (r : ReadyState) (k : Socket) : Socket :=
  mkSocket r (token k) (sent k) (listeners k) (closes k).

(** [ws.on(name, f)] *)
Definition on (name : EventName) (f : Listener) (k : Socket) : Socket :=
  mkSocket (readyState k) (token k) (sent k) (listeners k ++ [(name, f)]) (closes k).

(** *** The calls the handlers make on a socket *)

(** [client.send(p)] *)
Definition push (p : ClientPayload) (c : Client) : Client :=
  mkClient (isAlive c) (client_readyState c) (upstream c) (client_sent c ++ [p])
           (pings c) (client_closes c) (terminated c).

Definition client_send (p : ClientPayload) (s : Session) : Session :=
  with_client (push p) s.

(** [client.close()], called by the bridge on an open client only: the
    socket starts its closing handshake. *)
Definition hangup (c : Client) : Client :=
  mkClient (isAlive c) CLOSING (upstream c) (client_sent c) (pings c)
           (S (client_closes c)) (terminated c).

Definition client_close (s : Session) : Session := with_client hangup s.

(** [client.ping()] *)
Definition client_ping (s : Session) : Session :=
  with_client (fun c =>
    mkClient (isAlive c) (client_readyState c) (upstream c) (client_sent c)
             (S (pings c)) (client_closes c) (terminated c)) s.

(** [client.terminate()]: the connection is destroyed without a
    closing handshake; its ['close'] event follows. *)
Definition client_terminate (s : Session) : Session :=
  with_client (fun c =>
    mkClient (isAlive c)
             (match client_readyState c with CLOSED => CLOSED | _ => CLOSING end)
             (upstream c) (client_sent c) (pings c) (client_closes c) true) s.

(** [sockets[u].send(JSON.stringify(v))] *)
Definition transmit (v : json) (k : Socket) : Socket :=
  mkSocket (readyState k) (token k) (sent k ++ [v]) (listeners k) (closes k).

Definition socket_send (u : nat) (v : json) (s : Session) : Session :=
  with_sockets (alter (transmit v) u) s.

(** [sockets[u].close()], called on an open socket only. *)
Definition shut (k : Socket) : Socket :=
  mkSocket CLOSING (token k) (sent k) (listeners k) (S (closes k)).

Definition socket_close (u : nat) (s : Session) : Session :=
  with_sockets (alter shut u) s.

(** [client.upstream && client.upstream.readyState === WebSocket.OPEN] *)
Definition upstream_open (s : Session) : bool :=
  match upstream (client s) with
  | None => false
  | Some u =>
      match sockets s !! u with
      | Some k => bool_decide (readyState k = OPEN)
      | None => false
      end
  end.

(* ===================================================================== *)
(** ** The messages of the two protocols *)
(* ===================================================================== *)

Definition connected : json :=
  JObj [("type", JStr "connected"); ("message", JStr "WebSocket connection established")].

Definition ready : json := JObj [("ready", JBool true)].

Definition upstream_already_started : json :=
  JObj [("error", JStr "upstream_already_started")].

Definition upstream_setup_failed (detail : string) : json :=
  JObj [("error", JStr "upstream_setup_failed"); ("detail", JStr detail)].

Definition openai_connection_failed (detail : string) : json :=
  JObj [("error", JStr "openai_connection_failed"); ("detail", JStr detail)].

Definition openai_error (detail : option json) : json :=
  JS.object [("error", Some (JStr "openai_error")); ("detail", detail)].

Definition partial (text item_id : option json) : json :=
  JS.object [("type", Some (JStr "partial")); ("text", text); ("item_id", item_id)].

Definition final (text item_id : option json) : json :=
  JS.object [("type", Some (JStr "final")); ("text", text); ("item_id", item_id)].

(** The [type]s of the upstream events the bridge knows. *)
Definition transcription_delta : string :=
  "conversation.item.input_audio_transcription.delta".
Definition transcription_completed : string :=
  "conversation.item.input_audio_transcription.completed".
Definition buffer_committed : string := "input_audio_buffer.committed".

(** The [config] literal of [openOpenAIRealtime]. *)
Definition session_config : json :=
  JObj [("type", JStr "transcription_session.update");
        ("input_audio_format", JStr "pcm16");
        ("input_audio_transcription",
          JObj [("model", JStr "gpt-4o-transcribe"); ("language", JStr "en")]);
        ("turn_detection",
          JObj [("type", JStr "server_vad");
                ("threshold", JNum 5 (-1));
                ("prefix_padding_ms", JNum 300 0);
                ("silence_duration_ms", JNum 500 0)]);
        ("input_audio_noise_reduction", JObj [("type", JStr "near_field")])].

(** The [audioEvent] literal of the ['message'] listener. *)
Definition audioEvent (bytes : string) : json :=
  JObj [("type", JStr "input_audio_buffer.append");
        ("audio", JStr (Base64.encode bytes))].

(* ===================================================================== *)
(** ** The credential minter, [mintEphemeralToken] *)
(* ===================================================================== *)

(** How the [fetch] of the credential endpoint ends: it rejects, or it
    gives a response, of which the minter reads [ok], [status],
    [statusText] and the body through [text()] or [json()]. *)
Inductive FetchResult : Type :=
| NetworkError (err : JsError)
| Response (ok : bool) (status : Z) (statusText : string)
           (text : Outcome string) (data : Outcome json).

Definition mint_failed : string := "Failed to mint token: ".

(** [mintEphemeralToken] from the point where [fetch] has settled: the
    lines it logs and the token it returns or the error it throws.
    Everything thrown inside its [try], its own [Error] for a response
    that is not [ok] included, is caught and thrown again with the
    prefix. *)
Definition mintEphemeralToken_resume (r : FetchResult) : list LogLine * Outcome (option json) :=
  let rethrow (logged : list LogLine) (error : JsError) :=
    (logged ++ [Lib_MintFailed error], Throw (Error (mint_failed +:+ message error))) in
  match r with
  | NetworkError err => rethrow [] err
  | Response ok status statusText text data =>
      if negb ok then
        match text with
        | Throw err => rethrow [] err
        | Return errorText =>
            rethrow [Lib_MintStatus status errorText] (Error (mint_failed +:+ statusText))
        end
      else
        match data with
        | Throw err => rethrow [] err
        | Return d =>
            match bind (JS.member (Some d) "client_secret")
                       (fun secret => JS.member secret "value") with
            | Throw err => rethrow [Lib_Minted] err
            | Return value => ([Lib_Minted], Return value)
            end
        end
  end.

(* ===================================================================== *)
(** ** The session bridge *)
(* ===================================================================== *)

(** The two deployments of the bridge: the route module
    ([src/app/api/ws/transcriptions/route.ts]) and the standalone server.
    They differ in how the ['message'] listener tells a command from
    audio.  (The standalone server also loads [lib/openai] with an
    awaited [import] before each of the two calls; the import touches
    nothing of the session and is not a step of its own here.) *)
Inductive Deployment : Type := Route | Server.

(** The upgrade request, of which the bridge reads two fields. *)
Record Request : Type := mkRequest {
  x_forwarded_for : option string;
  remoteAddress : option string
}.

(** [a || b] on strings that may be missing. *)
Definition or_string (a : option string) (b : string) : string :=
  match a with
  | Some x => if String.eqb x "" then b else x
  | None => b
  end.

Section Gateway.

(** [JSON.parse]; [None] when it throws. *)
Variable JSON_parse : string -> option json.

(** [process.env.MODEL_NAME] *)
Variable MODEL_NAME : option string.

Variable deployment : Deployment.

(** *** [wss.on('connection', ...)] *)

Definition onConnect (req : Request) : Session :=
  let ip := or_string (x_forwarded_for req) (or_string (remoteAddress req) "unknown") in
  {| clientIp := ip;
     client := {| isAlive := true; client_readyState := OPEN; upstream := None;
                  client_sent := [Json connected]; pings := 0; client_closes := 0;
                  terminated := false |};
     sockets := []; tasks := []; microtasks := []; requests := [];
     console := [L_ClientConnected ip] |}.

(** *** [client.on('pong', ...)] *)

Definition onPong (s : Session) : Session := with_client (set_isAlive true) s.

(** *** The start branch of [client.on('message', ...)] *)

(** [mintEphemeralToken(model)] up to its [await fetch(...)]: the
    request leaves and the run is suspended. *)
Definition mintEphemeralToken (model : option json) (s : Session) : Session :=
  let s := log (Lib_Minting model) s in
  let body := JS.object [("model", model ||| Some (JStr "gpt-4o-transcribe"))] in
  with_tasks (fun ts => ts ++ [AwaitMint]) (with_requests (fun rs => rs ++ [body]) s).

(** The [try] block of the listener from [JSON.parse]'s result on.
    The flag tells that the block was left by an exception (the read of
    [msg.action] on [null]), with the state as it was then. *)
Definition onCommand (msg : json) (s : Session) : Session * bool :=
  let s := log (L_ReceivedJSON (clientIp s) msg) s in
  match JS.member (Some msg) "action" with
  | Throw _ => (s, true)
  | Return action =>
      if JS.is_string action "start" then
        if upstream_open s then
          (client_send (Json upstream_already_started) (log (L_StartExisting (clientIp s)) s),
           false)
        else
          let lang := JS.read msg "lang" ||| Some (JStr "en") in
          let model :=
            JS.read msg "model" ||| JS.of_env MODEL_NAME ||| Some (JStr "gpt-4o-transcribe") in
          let s := log (L_Starting (clientIp s) lang model) s in
          let s := log (L_Minting (clientIp s)) s in
          (mintEphemeralToken model s, false)
      else (s, false)
  end.

(** The audio branch: the frame goes upstream when there is an open
    upstream, and nowhere otherwise. *)
Definition forwardAudio (bytes : string) (s : Session) : Session :=
  if upstream_open s then
    match upstream (client s) with
    | Some u => socket_send u (audioEvent bytes) s
    | None => s
    end
  else s.

(** [client.on('message', ...)] of the route module: a string is a
    command, a [Buffer] is audio. *)
Definition route_onMessage (m : Message) (s : Session) : Session :=
  match m with
  | Str text =>
      let invalid s := log (L_InvalidJSON (clientIp s) (substring 0 100 text)) s in
      match JSON_parse text with
      | None => invalid s
      | Some msg =>
          let '(s', thrown) := onCommand msg s in
          if thrown then invalid s' else s'
      end
  | Buf bytes => forwardAudio bytes s
  end.

(** [client.on('message', ...)] of the standalone server: whatever
    arrives is first read as a command; what does not parse is audio
    when it is a [Buffer]. *)
Definition server_onMessage (m : Message) (s : Session) : Session :=
  let messageStr := toString m in
  let caught s :=
    match m with
    | Buf bytes => forwardAudio bytes s
    | Str _ => log (L_InvalidMessage (clientIp s) (substring 0 100 messageStr)) s
    end in
  match JSON_parse messageStr with
  | None => caught s
  | Some msg =>
      let '(s', thrown) := onCommand msg s in
      if thrown then caught s' else s'
  end.

Definition onMessage (m : Message) (s : Session) : Session :=
  match deployment with
  | Route => route_onMessage m s
  | Server => server_onMessage m s
  end.

(** *** The setup [catch] *)

Definition setupCatch (t : nat) (err : JsError) (s : Session) : Session :=
  let s := log (L_SetupError (clientIp s) err) s in
  let s := client_send (Json (upstream_setup_failed (message err))) s in
  with_tasks (<[t := Failed]>) s.

(** *** The upstream connector, [openOpenAIRealtime] *)

(** The call itself: the socket is made, connecting, with the
    connector's three listeners, and the run [t] awaits the promise. *)
Definition openOpenAIRealtime (t : nat) (tok : option json) (s : Session) : Session :=
  let s := log Lib_Opening s in
  let u := length (sockets s) in
  let ws :=
    on close_ Connector_close
      (on error_ (Connector_error t)
        (on open_ (Connector_open t)
          {| readyState := CONNECTING; token := tok; sent := [];
             listeners := []; closes := 0 |})) in
  with_tasks (<[t := AwaitOpen u]>) (with_sockets (fun ks => ks ++ [ws]) s).

(** [resolve(ws)] and [reject(err)]: a promise settles once; the code
    waiting on it runs as a microtask. *)
Definition resolve (t u : nat) (s : Session) : Session :=
  match tasks s !! t with
  | Some (AwaitOpen _) =>
      with_microtasks (fun q => q ++ [t]) (with_tasks (<[t := Resolved u]>) s)
  | _ => s
  end.

Definition reject (t : nat) (err : JsError) (s : Session) : Session :=
  match tasks s !! t with
  | Some (AwaitOpen _) =>
      with_microtasks (fun q => q ++ [t]) (with_tasks (<[t := Rejected err]>) s)
  | _ => s
  end.

(** *** The run after [await mintEphemeralToken(model)] *)

Definition onFetch (t : nat) (r : FetchResult) (s : Session) : Session :=
  match tasks s !! t with
  | Some AwaitMint =>
      let '(logged, result) := mintEphemeralToken_resume r in
      let s := fold_left (fun s l => log l s) logged s in
      match result with
      | Return tok =>
          let s := log (L_TokenMinted (clientIp s)) s in
          let s := log (L_OpeningUpstream (clientIp s)) s in
          openOpenAIRealtime t tok s
      | Throw err => setupCatch t err s
      end
  | _ => s
  end.

(** *** The run after [await openOpenAIRealtime(token)] *)

Definition afterOpen (t u : nat) (s : Session) : Session :=
  let s := with_client (set_upstream (Some u)) s in
  let s := log (L_UpstreamEstablished (clientIp s)) s in
  let s :=
    with_sockets (alter (fun k =>
      on error_ Bridge_error
        (on close_ Bridge_close
          (on message_ Bridge_message
            (on open_ Bridge_open k)))) u) s in
  with_tasks (<[t := Established u]>) s.

Definition runMicrotask (s : Session) (t : nat) : Session :=
  match tasks s !! t with
  | Some (Resolved u) => afterOpen t u s
  | Some (Rejected err) => setupCatch t err s
  | _ => s
  end.

(** The microtask queue is emptied when the listeners of the current
    event have returned: the run goes on in the step of the event that
    settled its promise.  An event that the transport emits on the same
    socket before the continuation has run (Node serves its
    [process.nextTick] queue before the promise jobs) would find the
    bridge's listeners not yet registered; the machine has no such
    step, and what a ['message'] does on a socket in that condition is
    stated for any state, reachable here or not. *)
Definition drain (s : Session) : Session :=
  fold_left runMicrotask (microtasks s) (with_microtasks (fun _ => []) s).

(** *** The listeners on the upstream socket *)

(** [upstream.on('message', ...)], the message translator. *)
Definition onUpstreamMessage (data : string) (s : Session) : Session :=
  let ip := clientIp s in
  let caught s := client_send (Text data) (log (L_NonJSONFromOpenAI ip (substring 0 100 data)) s) in
  match JSON_parse data with
  | None => caught s
  | Some openaiMessage =>
      match JS.member (Some openaiMessage) "type" with
      | Throw _ => caught s
      | Return type =>
          let s := log (L_OpenAIMessage ip type) s in
          if JS.is_string type transcription_delta then
            client_send (Json (partial (JS.read openaiMessage "delta")
                                       (JS.read openaiMessage "item_id"))) s
          else if JS.is_string type transcription_completed then
            client_send (Json (final (JS.read openaiMessage "transcript")
                                     (JS.read openaiMessage "item_id"))) s
          else if JS.is_string type buffer_committed then
            log (L_AudioCommitted ip (JS.read openaiMessage "item_id")) s
          else if JS.is_string type "error" then
            let s := log (L_OpenAIError ip openaiMessage) s in
            client_send
              (Json (openai_error
                       (JS.opt_member (JS.read openaiMessage "error") "message"
                          ||| Some (JStr "Unknown error")))) s
          else client_send (Text data) s
      end
  end.

(** [upstream.on('close', ...)] *)
Definition onUpstreamClose (code : Z) (s : Session) : Session :=
  let s := log (L_UpstreamClosed (clientIp s) code) s in
  let s :=
    if bool_decide (client_readyState (client s) = OPEN) then client_close s else s in
  with_client (set_upstream None) s.

(** [upstream.on('error', ...)] *)
Definition onUpstreamError (err : JsError) (s : Session) : Session :=
  let s := log (L_UpstreamError (clientIp s) err) s in
  let s :=
    if bool_decide (client_readyState (client s) = OPEN) then
      client_close (client_send (Json (openai_connection_failed (message err))) s)
    else s in
  with_client (set_upstream None) s.

(** One listener called with the arguments of the event [ev] emitted
    on socket [u]. *)
Definition call (u : nat) (ev : UpstreamEvent) (s : Session) (f : Listener) : Session :=
  match f, ev with
  | Connector_open t, U_open =>
      let s := log Lib_Opened s in
      let s := socket_send u session_config s in
      let s := log Lib_SentConfig s in
      resolve t u s
  | Connector_error t, U_error err => reject t err (log (Lib_ConnectionError err) s)
  | Connector_close, U_close code reason => log (Lib_Closed code reason) s
  | Bridge_open, U_open =>
      client_send (Json ready) (log (L_UpstreamOpened (clientIp s)) s)
  | Bridge_message, U_message data => onUpstreamMessage data s
  | Bridge_close, U_close code _ => onUpstreamClose code s
  | Bridge_error, U_error err => onUpstreamError err s
  | _, _ => s
  end.

(** [EventEmitter.emit]: the listeners registered for the event when it
    is emitted, in the order of registration. *)
Definition listening (name : EventName) (ls : list (EventName * Listener)) : list Listener :=
  snd <$> filter (fun l => fst l = name) ls.

Definition emit (u : nat) (ev : UpstreamEvent) (s : Session) : Session :=
  match sockets s !! u with
  | Some k => fold_left (call u ev) (listening (event_name ev) (listeners k)) s
  | None => s
  end.

(** What the transport does when something happens on upstream
    socket [u]: ['open'] is emitted once, when a connecting socket
    opens; ['message'] on a socket that has opened and is not yet
    closed; ['error'] leaves the socket closing (a handshake that fails
    emits ['error'] and then ['close']); ['close'] is emitted once, on a
    socket that has left the connecting state, and leaves it closed. *)
Definition onUpstream (u : nat) (ev : UpstreamEvent) (s : Session) : Session :=
  match sockets s !! u with
  | None => s
  | Some k =>
      let fire (r : ReadyState) :=
        drain (emit u ev (with_sockets (alter (set_readyState r) u) s)) in
      match ev, readyState k with
      | U_open, CONNECTING => fire OPEN
      | U_message _, OPEN => fire OPEN
      | U_message _, CLOSING => fire CLOSING
      | U_error _, (CONNECTING | OPEN | CLOSING) => fire CLOSING
      | U_close _ _, (OPEN | CLOSING) => fire CLOSED
      | _, _ => s
      end
  end.

(** *** [client.on('close', ...)] and [client.on('error', ...)] *)

Definition closeUpstream (s : Session) : Session :=
  if upstream_open s then
    match upstream (client s) with
    | Some u => socket_close u s
    | None => s
    end
  else s.

Definition onClose (code : Z) (s : Session) : Session :=
  let s := with_client (set_client_readyState CLOSED) s in
  closeUpstream (log (L_ClientDisconnected (clientIp s) code) s).

Definition onError (err : JsError) (s : Session) : Session :=
  let s :=
    with_client (fun c =>
      set_client_readyState
        (match client_readyState c with CLOSED => CLOSED | _ => CLOSING end) c) s in
  closeUpstream (log (L_ClientError (clientIp s) err) s).

(** *** The heartbeat *)

(** The body of [wss.clients.forEach] for one client. *)
Definition sweep (s : Session) : Session :=
  if isAlive (client s) then client_ping (with_client (set_isAlive false) s)
  else client_terminate (log L_TerminatingDead s).

(** [wss.clients] holds a client until its ['close'] event. *)
Definition registered (s : Session) : bool :=
  negb (bool_decide (client_readyState (client s) = CLOSED)).

Definition heartbeat (s : Session) : Session :=
  if registered s then sweep s else s.

(** *** The session as a machine *)

Inductive Event : Type :=
| E_message (m : Message)
| E_pong
| E_close (code : Z)
| E_error (err : JsError)
| E_fetch (t : nat) (r : FetchResult)
| E_upstream (u : nat) (ev : UpstreamEvent)
| E_heartbeat.

Definition step (s : Session) (e : Event) : Session :=
  match e with
  | E_message m => onMessage m s
  | E_pong => onPong s
  | E_close code => onClose code s
  | E_error err => onError err s
  | E_fetch t r => onFetch t r s
  | E_upstream u ev => onUpstream u ev s
  | E_heartbeat => heartbeat s
  end.

Definition run (s : Session) (trace : list Event) : Session :=
  fold_left step trace s.

End Gateway.

(** The interval callback over all the sessions of the server. *)
Definition heartbeat_all (wss_clients : list Session) : list Session :=
  heartbeat <$> wss_clients.


(* ===================================================================== *)
(** ** Vocabulary of the properties *)
(* ===================================================================== *)

(** The listeners a socket holds when [openOpenAIRealtime] returns its
    promise, and the ones the bridge adds when the promise has resolved. *)
Definition connector_listeners (t : nat) : list (EventName * Listener) :=
  [(open_, Connector_open t); (error_, Connector_error t); (close_, Connector_close)].

Definition bridge_listeners : list (EventName * Listener) :=
  [(open_, Bridge_open); (message_, Bridge_message);
   (close_, Bridge_close); (error_, Bridge_error)].

Definition is_audio (v : json) : Prop := exists bytes, v = audioEvent bytes.

#[global] Arguments connector_listeners : simpl never.
#[global] Arguments bridge_listeners : simpl never.
#[global] Arguments session_config : simpl never.
#[global] Arguments audioEvent : simpl never.
#[global] Arguments partial : simpl never.
#[global] Arguments final : simpl never.
#[global] Arguments openai_error : simpl never.

(** How many elements of a list pass a test. *)
Fixpoint count {A : Type} (f : A -> bool) (l : list A) : nat :=
  match l with
  | [] => 0
  | x :: rest => (if f x then 1 else 0) + count f rest
  end.

(** [{error: "upstream_setup_failed", ...}] *)
Definition is_setup_failed (p : ClientPayload) : bool :=
  match p with
  | Json (JObj ((k, JStr e) :: _)) =>
      String.eqb k "error" && String.eqb e "upstream_setup_failed"
  | _ => false
  end.

Definition is_failed (t : Task) : bool :=
  match t with
  | Failed => true
  | _ => false
  end.

(** A payload that is neither the ready acknowledgment nor a setup
    failure. *)
Definition quiet (p : ClientPayload) : Prop :=
  p <> Json ready /\ is_setup_failed p = false.

(** The three conditions an upstream socket [u] can be in, with the run
    [t] of the start branch that made it. *)
Inductive socket_ok (ts : list Task) (u : nat) (k : Socket) : Prop :=
| Pending (t : nat) :
    listeners k = connector_listeners t ->
    sent k = [] ->
    ts !! t = Some (AwaitOpen u) ->
    readyState k = CONNECTING ->
    socket_ok ts u k
| Dead (t : nat) :
    listeners k = connector_listeners t ->
    sent k = [] ->
    ts !! t = Some Failed ->
    readyState k <> CONNECTING ->
    readyState k <> OPEN ->
    socket_ok ts u k
| Live (t : nat) (frames : list json) :
    listeners k = connector_listeners t ++ bridge_listeners ->
    sent k = session_config :: frames ->
    Forall is_audio frames ->
    ts !! t = Some (Established u) ->
    readyState k <> CONNECTING ->
    socket_ok ts u k.

(** What holds of a session between two events. *)
Record invariant (s : Session) : Prop := mkInvariant {
  inv_sockets : forall u k, sockets s !! u = Some k -> socket_ok (tasks s) u k;
  inv_await : forall t u, tasks s !! t = Some (AwaitOpen u) ->
    exists k, sockets s !! u = Some k /\ listeners k = connector_listeners t;
  inv_established : forall t u, tasks s !! t = Some (Established u) ->
    exists k, sockets s !! u = Some k /\
              listeners k = connector_listeners t ++ bridge_listeners;
  inv_resolved : forall t u, tasks s !! t <> Some (Resolved u);
  inv_rejected : forall t err, tasks s !! t <> Some (Rejected err);
  inv_owned : forall u, upstream (client s) = Some u ->
    exists k t, sockets s !! u = Some k /\
                listeners k = connector_listeners t ++ bridge_listeners;
  inv_queue : microtasks s = [];
  inv_ready : Json ready ∉ client_sent (client s);
  inv_failures :
    count is_setup_failed (client_sent (client s)) = count is_failed (tasks s)
}.

(** A step that leaves the sockets, the reference to the upstream and
    the queue as they were, starts runs at most, and sends the client
    quiet payloads only. *)
Record frame (s s' : Session) : Prop := mkFrame {
  frame_sockets : sockets s' = sockets s;
  frame_upstream : upstream (client s') = upstream (client s);
  frame_queue : microtasks s' = microtasks s;
  frame_tasks : exists n, tasks s' = tasks s ++ replicate n AwaitMint;
  frame_sent : exists new,
    client_sent (client s') = client_sent (client s) ++ new /\ Forall quiet new
}.

(** The client after [ps] have been sent to it. *)
Definition sends (ps : list ClientPayload) (c : Client) : Client :=
  mkClient (isAlive c) (client_readyState c) (upstream c) (client_sent c ++ ps)
           (pings c) (client_closes c) (terminated c).

(** The step from [s] to [s'] sent the client exactly [ps] and, apart
    from what it logged, did nothing else: no socket, run or request
    was touched, and the client is otherwise as it was. *)
Definition answers (s s' : Session) (ps : list ClientPayload) : Prop :=
  clientIp s' = clientIp s /\ client s' = sends ps (client s) /\
  sockets s' = sockets s /\ tasks s' = tasks s /\
  microtasks s' = microtasks s /\ requests s' = requests s.

(** The step logged something and did nothing else. *)
Definition only_logged (s s' : Session) : Prop :=
  clientIp s' = clientIp s /\ client s' = client s /\
  sockets s' = sockets s /\ tasks s' = tasks s /\
  microtasks s' = microtasks s /\ requests s' = requests s /\
  exists lines, lines <> [] /\ console s' = console s ++ lines.

(** The step began a run of the start branch: a request for a token
    scoped to [model] left, one more run is suspended, and nothing was
    sent to the client. *)
Definition accepted (s s' : Session) (model : json) : Prop :=
  clientIp s' = clientIp s /\ client s' = client s /\
  sockets s' = sockets s /\ tasks s' = tasks s ++ [AwaitMint] /\
  microtasks s' = microtasks s /\
  requests s' = requests s ++ [JObj [("model", model)]].

(** The step passed the frame [bytes] to the open upstream the client
    holds, as one append message, and did nothing else. *)
Definition forwarded (bytes : string) (s s' : Session) : Prop :=
  exists u k,
    upstream (client s) = Some u /\ sockets s !! u = Some k /\ readyState k = OPEN /\
    sockets s' = <[u := transmit (audioEvent bytes) k]> (sockets s) /\
    clientIp s' = clientIp s /\ client s' = client s /\ tasks s' = tasks s /\
    microtasks s' = microtasks s /\ requests s' = requests s /\
    console s' = console s.

(** No heartbeat finds an earlier ping unanswered: [pending] tells
    whether a ping has gone out with no pong since. *)
Fixpoint answered {E : Type} (is_heartbeat is_pong : E -> bool) (pending : bool)
    (trace : list E) : bool :=
  match trace with
  | [] => true
  | e :: rest =>
      if is_heartbeat e then negb pending && answered is_heartbeat is_pong true rest
      else if is_pong e then answered is_heartbeat is_pong false rest
      else answered is_heartbeat is_pong pending rest
  end.

Definition is_heartbeat (e : Event) : bool :=
  match e with
  | E_heartbeat => true
  | _ => false
  end.

Definition is_pong (e : Event) : bool :=
  match e with
  | E_pong => true
  | _ => false
  end.

(** The client's ['close'] event, which takes it out of [wss.clients]. *)
Definition is_close (e : Event) : bool :=
  match e with
  | E_close _ => true
  | _ => false
  end.

(** A step that touches neither the liveness flag nor the record of
    [terminate()], and leaves a registered client registered. *)
Definition keeps_liveness (s s' : Session) : Prop :=
  isAlive (client s') = isAlive (client s) /\
  terminated (client s') = terminated (client s) /\
  (registered s = true -> registered s' = true).

(** The outcome of a run of the start branch that failed: the client
    was sent one [upstream_setup_failed] event with the error's message
    and is otherwise as it was, its reference to an upstream included;
    the run is over; whether the client holds an open upstream is as
    before. *)
Definition setup_failed_outcome (s s' : Session) (t : nat) (err : JsError) : Prop :=
  client s' = push (Json (upstream_setup_failed (message err))) (client s) /\
  tasks s' = <[t := Failed]> (tasks s) /\
  upstream_open s' = upstream_open s /\
  requests s' = requests s /\ microtasks s' = microtasks s.

(** Test payloads are written with an apostrophe where JSON has a
    double quote. *)
Definition json_text (s : string) : string :=
  string_of_list_ascii
    ((fun c => if Ascii.eqb c "'"%char then Parser.quote else c)
       <$> list_ascii_of_string s).

(* ===================================================================== *)
(** ** Lists and counting *)
(* ===================================================================== *)

Lemma count_app {A} (f : A -> bool) (l1 l2 : list A) :
  count f (l1 ++ l2) = count f l1 + count f l2.
Proof. induction l1 as [|x l1 IH]; simpl; [done | rewrite IH; lia]. Qed.

Lemma count_replicate_false {A} (f : A -> bool) (x : A) (n : nat) :
  f x = false -> count f (replicate n x) = 0.
Proof. intros Hx. induction n as [|n IH]; simpl; [done | by rewrite Hx, IH]. Qed.

Lemma count_insert {A} (f : A -> bool) (l : list A) (i : nat) (x y : A) :
  l !! i = Some x ->
  count f (<[i := y]> l) + (if f x then 1 else 0)
  = count f l + (if f y then 1 else 0).
Proof.
  revert i. induction l as [|a l IH]; intros [|i] Hi; simplify_eq/=.
  - lia.
  - specialize (IH _ Hi). lia.
Qed.

Lemma count_zero_Forall {A} (f : A -> bool) (l : list A) :
  Forall (fun x => f x = false) l -> count f l = 0.
Proof. induction 1 as [|x l Hx _ IH]; simpl; [done | by rewrite Hx, IH]. Qed.

Lemma alter_lookup {A} (f : A -> A) (l : list A) (i : nat) (x : A) :
  l !! i = Some x -> alter f i l = <[i := f x]> l.
Proof.
  revert i. induction l as [|a l IH]; intros [|i] Hi; simplify_eq/=; [done|].
  f_equal. by apply IH.
Qed.

Lemma Session_eq (s s' : Session) :
  clientIp s = clientIp s' -> client s = client s' -> sockets s = sockets s' ->
  tasks s = tasks s' -> microtasks s = microtasks s' -> requests s = requests s' ->
  console s = console s' -> s = s'.
Proof. destruct s, s'. simpl. by intros -> -> -> -> -> -> ->. Qed.

Lemma fold_left_preserves {A B} (P : A -> Prop) (f : A -> B -> A) (l : list B) (a : A) :
  P a -> (forall a b, P a -> P (f a b)) -> P (fold_left f l a).
Proof. intros Ha Hf. revert a Ha. induction l; simpl; auto. Qed.

(* ===================================================================== *)
(** ** Steps that leave the upstream side alone *)
(* ===================================================================== *)

Lemma frame_refl (s : Session) : frame s s.
Proof.
  split; try done.
  - exists 0. simpl. by rewrite app_nil_r.
  - exists []. by rewrite app_nil_r.
Qed.

Lemma frame_trans (s1 s2 s3 : Session) : frame s1 s2 -> frame s2 s3 -> frame s1 s3.
Proof.
  intros [Hk1 Hu1 Hq1 [n1 Ht1] [p1 [Hs1 Hp1]]] [Hk2 Hu2 Hq2 [n2 Ht2] [p2 [Hs2 Hp2]]].
  split; try congruence.
  - exists (n1 + n2). rewrite Ht2, Ht1, <- app_assoc. f_equal.
    by rewrite replicate_add.
  - exists (p1 ++ p2). rewrite Hs2, Hs1, <- app_assoc. split; [done|].
    by apply Forall_app.
Qed.

Lemma frame_log (l : LogLine) (s : Session) : frame s (log l s).
Proof.
  split; simpl; try done.
  - exists 0. simpl. by rewrite app_nil_r.
  - exists []. by rewrite app_nil_r.
Qed.

Lemma frame_logs (ls : list LogLine) (s : Session) :
  frame s (fold_left (fun s l => log l s) ls s).
Proof.
  revert s. induction ls as [|l ls IH]; intros s; simpl; [apply frame_refl|].
  eapply frame_trans; [apply (frame_log l) | apply IH].
Qed.

Lemma frame_with_client (f : Client -> Client) (s : Session) :
  upstream (f (client s)) = upstream (client s) ->
  client_sent (f (client s)) = client_sent (client s) ->
  frame s (with_client f s).
Proof.
  intros Hu Hs. split; simpl; try done.
  - exists 0. simpl. by rewrite app_nil_r.
  - exists []. by rewrite app_nil_r.
Qed.

Lemma frame_client_send (p : ClientPayload) (s : Session) :
  quiet p -> frame s (client_send p s).
Proof.
  intros Hp. split; simpl; try done.
  - exists 0. simpl. by rewrite app_nil_r.
  - exists [p]. split; [done | by constructor].
Qed.

Lemma frame_mintEphemeralToken (model : option json) (s : Session) :
  frame s (mintEphemeralToken model s).
Proof.
  split; simpl; try done.
  - by exists 1.
  - exists []. by rewrite app_nil_r.
Qed.

Lemma quiet_already_started : quiet (Json upstream_already_started).
Proof. by split. Qed.

Lemma quiet_Text (data : string) : quiet (Text data).
Proof. by split. Qed.

Lemma object_typed (label : string) (fields : list (string * option json)) :
  exists ms, JS.object (("type", Some (JStr label)) :: fields) = JObj (("type", JStr label) :: ms).
Proof.
  assert (Hobj : forall fs, exists ms, JS.object fs = JObj ms).
  { induction fs as [|[k [v|]] fs [ms IH]]; simpl; eauto. rewrite IH. eauto. }
  destruct (Hobj fields) as [ms Hms]. exists ms. simpl. by rewrite Hms.
Qed.

Lemma quiet_partial (text item_id : option json) : quiet (Json (partial text item_id)).
Proof.
  unfold partial. destruct (object_typed "partial" [("text", text); ("item_id", item_id)])
    as [ms ->]. by split.
Qed.

Lemma quiet_final (text item_id : option json) : quiet (Json (final text item_id)).
Proof.
  unfold final. destruct (object_typed "final" [("text", text); ("item_id", item_id)])
    as [ms ->]. by split.
Qed.

Lemma quiet_openai_error (detail : option json) : quiet (Json (openai_error detail)).
Proof. by destruct detail; split. Qed.

Lemma quiet_openai_connection_failed (detail : string) :
  quiet (Json (openai_connection_failed detail)).
Proof. by split. Qed.

(* ===================================================================== *)
(** ** The invariant *)
(* ===================================================================== *)

Lemma socket_ok_weaken (ts ts' : list Task) (u : nat) (k : Socket) :
  socket_ok ts u k ->
  (forall t x, ts !! t = Some x -> x = AwaitOpen u \/ x = Failed \/ x = Established u ->
               ts' !! t = Some x) ->
  socket_ok ts' u k.
Proof.
  intros Hk Hts. destruct Hk as [t ? ? Ht ?|t ? ? Ht ? ?|t frames ? ? ? Ht ?].
  - eapply Pending; eauto.
  - eapply Dead; eauto.
  - eapply Live; eauto 6.
Qed.

Lemma socket_ok_app (ts extra : list Task) (u : nat) (k : Socket) :
  socket_ok ts u k -> socket_ok (ts ++ extra) u k.
Proof.
  intros Hk. eapply socket_ok_weaken; [done|].
  intros t x Ht _. by apply lookup_app_l_Some.
Qed.

(** Changing a run that socket [u] does not hang on. *)
Lemma socket_ok_insert (ts : list Task) (t0 : nat) (old new : Task) (u : nat) (k : Socket) :
  ts !! t0 = Some old ->
  old <> AwaitOpen u -> old <> Failed -> old <> Established u ->
  socket_ok ts u k ->
  socket_ok (<[t0 := new]> ts) u k.
Proof.
  intros Hold ? ? ? Hk. eapply socket_ok_weaken; [done|].
  intros t x Ht Hx. rewrite list_lookup_insert_ne; [done|].
  intros ->. rewrite Hold in Ht. injection Ht as ->. by destruct Hx as [?|[?|?]].
Qed.

Lemma listeners_not_both (t t' : nat) :
  connector_listeners t <> connector_listeners t' ++ bridge_listeners.
Proof. discriminate. Qed.

(** A socket that holds the bridge's listeners is live. *)
Lemma socket_ok_live (ts : list Task) (u : nat) (k : Socket) (t : nat) :
  socket_ok ts u k ->
  listeners k = connector_listeners t ++ bridge_listeners ->
  exists frames, sent k = session_config :: frames /\ Forall is_audio frames /\
                 ts !! t = Some (Established u) /\ readyState k <> CONNECTING.
Proof.
  intros [t' Hl|t' Hl|t' frames Hl ? ? ? ?] Hk; rewrite Hk in Hl;
    try (by apply eq_sym, listeners_not_both in Hl).
  simplify_eq. eauto.
Qed.

Lemma invariant_frame (s s' : Session) : invariant s -> frame s s' -> invariant s'.
Proof.
  intros [Hk Ha He Hr Hj Ho Hq Hy Hf] [Fk Fu Fq [n Ft] [new [Fs Fnew]]].
  assert (Hnew : forall t x, tasks s' !! t = Some x -> tasks s !! t = Some x \/ x = AwaitMint).
  { intros t x. rewrite Ft, lookup_app. destruct (tasks s !! t); [auto|].
    intros [-> _]%lookup_replicate. auto. }
  split.
  - intros u k. rewrite Fk, Ft. intros Hu. by apply socket_ok_app, Hk.
  - intros t u Ht. rewrite Fk. destruct (Hnew _ _ Ht); [eauto | done].
  - intros t u Ht. rewrite Fk. destruct (Hnew _ _ Ht); [eauto | done].
  - intros t u Ht. destruct (Hnew _ _ Ht); [by eapply Hr | done].
  - intros t err Ht. destruct (Hnew _ _ Ht); [by eapply Hj | done].
  - rewrite Fu, Fk. apply Ho.
  - congruence.
  - rewrite Fs. intros [?|Hin]%elem_of_app; [done|].
    rewrite Forall_forall in Fnew. by destruct (Fnew _ Hin).
  - rewrite Fs, Ft, !count_app, Hf.
    rewrite (count_replicate_false is_failed) by done.
    rewrite (count_zero_Forall is_setup_failed); [done|].
    eapply Forall_impl; [done|]. by intros p [_ ?].
Qed.

(** A call on the upstream the client holds that keeps its listeners,
    does not reopen it and sends audio at most. *)
Lemma invariant_alter_owned (f : Socket -> Socket) (u : nat) (s : Session) :
  invariant s ->
  upstream (client s) = Some u ->
  (forall k, listeners (f k) = listeners k) ->
  (forall k, readyState k <> CONNECTING -> readyState (f k) <> CONNECTING) ->
  (forall k, exists extra, sent (f k) = sent k ++ extra /\ Forall is_audio extra) ->
  invariant (with_sockets (alter f u) s).
Proof.
  intros [Hk Ha He Hr Hj Ho Hq Hy Hf] Hu Hl Hrs Hsent.
  destruct (Ho _ Hu) as (k & t & Hku & Hkl).
  split; simpl; try done.
  - intros u' k'. rewrite list_lookup_alter. case_decide as Huu; [subst u'|by apply Hk].
    rewrite Hku. intros [= <-].
    destruct (socket_ok_live _ _ _ _ (Hk _ _ Hku) Hkl) as (frames & Hs & Hframes & Ht & Hc).
    destruct (Hsent k) as (extra & Hextra & Haudio).
    eapply (Live _ _ _ t (frames ++ extra)); rewrite ?Hl; auto.
    + by rewrite Hextra, Hs.
    + by apply Forall_app.
  - intros t' u' Ht'. destruct (Ha _ _ Ht') as (k' & Hk' & Hl').
    rewrite list_lookup_alter. case_decide as Huu; [subst u'|eauto].
    rewrite Hku in Hk'. simplify_eq. rewrite Hkl in Hl'.
    by apply eq_sym, listeners_not_both in Hl'.
  - intros t' u' Ht'. destruct (He _ _ Ht') as (k' & Hk' & Hl').
    rewrite list_lookup_alter. case_decide as Huu; [subst u'|eauto].
    rewrite Hk'. simpl. exists (f k'). by rewrite Hl.
  - intros u' Hu'. destruct (Ho _ Hu') as (k' & t' & Hk' & Hl').
    rewrite list_lookup_alter. case_decide as Huu; [subst u'|eauto].
    rewrite Hk'. simpl. exists (f k'), t'. by rewrite Hl.
Qed.

Lemma invariant_forwardAudio (bytes : string) (s : Session) :
  invariant s -> invariant (forwardAudio bytes s).
Proof.
  intros Hs. unfold forwardAudio.
  destruct (upstream_open s); [|done].
  destruct (upstream (client s)) as [u|] eqn:Hu; [|done].
  unfold socket_send. apply invariant_alter_owned; try done.
  intros k. exists [audioEvent bytes]. split; [done|].
  constructor; [by exists bytes | constructor].
Qed.

Lemma invariant_closeUpstream (s : Session) :
  invariant s -> invariant (closeUpstream s).
Proof.
  intros Hs. unfold closeUpstream.
  destruct (upstream_open s); [|done].
  destruct (upstream (client s)) as [u|] eqn:Hu; [|done].
  unfold socket_close. apply invariant_alter_owned; try done.
  intros k. exists []. by rewrite app_nil_r.
Qed.

(** [client.upstream = undefined] *)
Lemma invariant_disown (s : Session) :
  invariant s -> invariant (with_client (set_upstream None) s).
Proof. intros [Hk Ha He Hr Hj Ho Hq Hy Hf]. by split. Qed.

(** The transport moves a socket that has left the connecting state. *)
Lemma invariant_set_readyState (r : ReadyState) (u : nat) (k : Socket) (s : Session) :
  invariant s ->
  sockets s !! u = Some k ->
  readyState k <> CONNECTING ->
  r <> CONNECTING ->
  (r = OPEN -> readyState k = OPEN) ->
  invariant (with_sockets (alter (set_readyState r) u) s).
Proof.
  intros [Hk Ha He Hr Hj Ho Hq Hy Hf] Hku Hc Hrc Hro.
  split; simpl; try done.
  - intros u' k'. rewrite list_lookup_alter. case_decide as Huu; [subst u'|by apply Hk].
    rewrite Hku. intros [= <-].
    destruct (Hk _ _ Hku) as [t ? ? ? ?|t ? ? ? ? ?|t frames ? ? ? ? ?]; [done| |].
    + eapply Dead; eauto.
    + eapply Live; eauto.
  - intros t' u' Ht'. destruct (Ha _ _ Ht') as (k' & Hk' & Hl').
    rewrite list_lookup_alter. case_decide as Huu; [subst u'|eauto].
    rewrite Hk'. simpl. eauto.
  - intros t' u' Ht'. destruct (He _ _ Ht') as (k' & Hk' & Hl').
    rewrite list_lookup_alter. case_decide as Huu; [subst u'|eauto].
    rewrite Hk'. exists (set_readyState r k'). by split.
  - intros u' Hu'. destruct (Ho _ Hu') as (k' & t' & Hk' & Hl').
    rewrite list_lookup_alter. case_decide as Huu; [subst u'|eauto].
    rewrite Hk'. exists (set_readyState r k'), t'. by split.
Qed.

Lemma invariant_setupCatch (t : nat) (err : JsError) (s : Session) :
  invariant s ->
  tasks s !! t = Some AwaitMint ->
  invariant (setupCatch t err s).
Proof.
  intros [Hk Ha He Hr Hj Ho Hq Hy Hf] Ht.
  split; simpl; try done.
  - intros u k Hu. eapply socket_ok_insert; eauto.
  - intros t' u [[_ [? _]]|[_ Ht']]%list_lookup_insert_Some; [done | eauto].
  - intros t' u [[_ [? _]]|[_ Ht']]%list_lookup_insert_Some; [done | by eapply He].
  - intros t' u [[_ [? _]]|[_ Ht']]%list_lookup_insert_Some; [done | by eapply Hr].
  - intros t' e [[_ [? _]]|[_ Ht']]%list_lookup_insert_Some; [done | by eapply Hj].
  - intros [?|Hin]%elem_of_app; [done|]. by apply list_elem_of_singleton in Hin.
  - rewrite count_app, Hf. simpl.
    pose proof (count_insert is_failed _ _ _ Failed Ht) as Hc. simpl in Hc. lia.
Qed.

Lemma invariant_openOpenAIRealtime (t : nat) (tok : option json) (s : Session) :
  invariant s ->
  tasks s !! t = Some AwaitMint ->
  invariant (openOpenAIRealtime t tok s).
Proof.
  intros [Hk Ha He Hr Hj Ho Hq Hy Hf] Ht.
  pose proof (lookup_lt_Some _ _ _ Ht) as Hlt.
  split; simpl; try done.
  - intros u k [[_ Hu]|[-> <-]]%lookup_snoc_Some.
    + eapply socket_ok_insert; eauto.
    + eapply (Pending _ _ _ t); try done. by apply list_lookup_insert_eq.
  - intros t' u [(<- & [= <-] & _)|[_ Ht']]%list_lookup_insert_Some.
    + eexists. split; [by apply list_lookup_middle | done].
    + destruct (Ha _ _ Ht') as (k & Hku & Hkl).
      exists k. split; [by apply lookup_app_l_Some | done].
  - intros t' u [[_ [? _]]|[_ Ht']]%list_lookup_insert_Some; [done|].
    destruct (He _ _ Ht') as (k & Hku & Hkl).
    exists k. split; [by apply lookup_app_l_Some | done].
  - intros t' u [[_ [? _]]|[_ Ht']]%list_lookup_insert_Some; [done | by eapply Hr].
  - intros t' e [[_ [? _]]|[_ Ht']]%list_lookup_insert_Some; [done | by eapply Hj].
  - intros u Hu. destruct (Ho _ Hu) as (k & t' & Hku & Hkl).
    exists k, t'. split; [by apply lookup_app_l_Some | done].
  - pose proof (count_insert is_failed _ _ _ (AwaitOpen (length (sockets s))) Ht) as Hc.
    simpl in Hc. lia.
Qed.

Lemma drain_nil (s : Session) : microtasks s = [] -> drain s = s.
Proof. destruct s. simpl. by intros ->. Qed.

Section Properties.

Variable JSON_parse : string -> option json.
Variable MODEL_NAME : option string.
Variable deployment : Deployment.

Lemma frame_onCommand (msg : json) (s : Session) :
  frame s (onCommand MODEL_NAME msg s).1.
Proof.
  unfold onCommand.
  destruct (JS.member (Some msg) "action") as [action|]; simpl; [|apply frame_log].
  destruct (JS.is_string action "start"); simpl; [|apply frame_log].
  destruct (upstream_open _); simpl.
  - eapply frame_trans; [apply frame_log|].
    eapply frame_trans; [apply frame_log|].
    apply frame_client_send, quiet_already_started.
  - eapply frame_trans; [apply frame_log|].
    eapply frame_trans; [apply frame_log|].
    eapply frame_trans; [apply frame_log|].
    apply frame_mintEphemeralToken.
Qed.

Lemma frame_onUpstreamMessage (data : string) (s : Session) :
  frame s (onUpstreamMessage JSON_parse data s).
Proof.
  unfold onUpstreamMessage.
  assert (Hcaught : forall s',
    frame s' (client_send (Text data)
                (log (L_NonJSONFromOpenAI (clientIp s) (substring 0 100 data)) s'))).
  { intros s'. eapply frame_trans; [apply frame_log|].
    apply frame_client_send, quiet_Text. }
  destruct (JSON_parse data) as [m|]; [|apply Hcaught].
  destruct (JS.member (Some m) "type") as [type|]; [|apply Hcaught].
  repeat case_match;
    repeat (first [ apply frame_log
                  | apply frame_client_send;
                    first [ apply quiet_partial | apply quiet_final
                          | apply quiet_openai_error | apply quiet_Text ]
                  | eapply frame_trans; [apply frame_log|] ]).
Qed.

Lemma frame_onPong (s : Session) : frame s (onPong s).
Proof. by apply frame_with_client. Qed.

Lemma frame_heartbeat (s : Session) : frame s (heartbeat s).
Proof.
  unfold heartbeat, sweep. repeat case_match; try apply frame_refl.
  - eapply frame_trans; [by apply (frame_with_client (set_isAlive false))|].
    unfold client_ping. by apply frame_with_client.
  - eapply frame_trans; [apply (frame_log L_TerminatingDead)|].
    unfold client_terminate. by apply frame_with_client.
Qed.

Lemma invariant_onMessage (m : Message) (s : Session) :
  invariant s -> invariant (onMessage JSON_parse MODEL_NAME deployment m s).
Proof.
  intros Hs. unfold onMessage, route_onMessage, server_onMessage.
  pose proof (frame_onCommand) as Hcmd.
  destruct deployment, m as [text|bytes]; simpl;
    repeat match goal with
    | |- context [JSON_parse ?x] => destruct (JSON_parse x) as [msg|]
    | |- context [onCommand MODEL_NAME ?msg s] =>
        specialize (Hcmd msg s); destruct (onCommand MODEL_NAME msg s) as [s' []]; simpl in Hcmd
    end;
    repeat first
      [ done
      | apply invariant_forwardAudio
      | by eapply invariant_frame; [| apply frame_log]
      | by eapply invariant_frame; [| apply Hcmd]
      | eapply invariant_frame; [| by apply frame_log] ].
Qed.

Lemma invariant_onClose (code : Z) (s : Session) :
  invariant s -> invariant (onClose code s).
Proof.
  intros Hs. unfold onClose. apply invariant_closeUpstream.
  eapply invariant_frame; [|apply frame_log].
  eapply invariant_frame; [done|]. by apply frame_with_client.
Qed.

Lemma invariant_onError (err : JsError) (s : Session) :
  invariant s -> invariant (onError err s).
Proof.
  intros Hs. unfold onError. apply invariant_closeUpstream.
  eapply invariant_frame; [|apply frame_log].
  eapply invariant_frame; [done|]. by apply frame_with_client.
Qed.

Lemma invariant_onFetch (t : nat) (r : FetchResult) (s : Session) :
  invariant s -> invariant (onFetch t r s).
Proof.
  intros Hs. unfold onFetch.
  destruct (tasks s !! t) as [[]|] eqn:Ht; try done.
  destruct (mintEphemeralToken_resume r) as [logged [tok|err]].
  - apply invariant_openOpenAIRealtime.
    + do 2 (eapply invariant_frame; [|apply frame_log]).
      eapply invariant_frame; [done | apply frame_logs].
    + simpl. destruct (frame_logs logged s) as [_ _ _ [n ->] _].
      by apply lookup_app_l_Some.
  - apply invariant_setupCatch.
    + eapply invariant_frame; [done | apply frame_logs].
    + destruct (frame_logs logged s) as [_ _ _ [n ->] _].
      by apply lookup_app_l_Some.
Qed.

(** *** What the transport's events do to a connecting socket *)

Lemma onUpstream_open_pending (s : Session) (u : nat) (k : Socket) (t : nat) :
  sockets s !! u = Some k ->
  readyState k = CONNECTING ->
  listeners k = connector_listeners t ->
  tasks s !! t = Some (AwaitOpen u) ->
  microtasks s = [] ->
  onUpstream JSON_parse u U_open s =
    mkSession (clientIp s) (set_upstream (Some u) (client s))
      (<[u := mkSocket OPEN (token k) (sent k ++ [session_config])
                       (connector_listeners t ++ bridge_listeners) (closes k)]> (sockets s))
      (<[t := Established u]> (tasks s)) [] (requests s)
      (console s ++ [Lib_Opened; Lib_SentConfig; L_UpstreamEstablished (clientIp s)]).
Proof.
  intros Hku Hrs Hl Ht Hq.
  pose proof (lookup_lt_Some _ _ _ Ht) as Hlt.
  unfold onUpstream. rewrite Hku, Hrs.
  unfold emit. simpl. rewrite list_lookup_alter_eq, Hku. simpl. rewrite Hl.
  unfold listening, connector_listeners. simpl.
  unfold resolve. simpl. rewrite Ht.
  unfold drain. simpl. rewrite Hq. simpl.
  unfold runMicrotask. simpl. rewrite list_lookup_insert_eq by done.
  unfold afterOpen.
  apply Session_eq; simpl; try done.
  - rewrite !list_alter_alter_eq. rewrite (alter_lookup _ _ _ _ Hku). f_equal.
    unfold on, transmit. simpl. rewrite Hl. reflexivity.
  - apply list_insert_insert_eq.
  - by rewrite <- !app_assoc.
Qed.

Lemma onUpstream_error_pending (s : Session) (u : nat) (k : Socket) (t : nat) (err : JsError) :
  sockets s !! u = Some k ->
  readyState k = CONNECTING ->
  listeners k = connector_listeners t ->
  tasks s !! t = Some (AwaitOpen u) ->
  microtasks s = [] ->
  onUpstream JSON_parse u (U_error err) s =
    mkSession (clientIp s)
      (push (Json (upstream_setup_failed (message err))) (client s))
      (<[u := set_readyState CLOSING k]> (sockets s))
      (<[t := Failed]> (tasks s)) [] (requests s)
      (console s ++ [Lib_ConnectionError err; L_SetupError (clientIp s) err]).
Proof.
  intros Hku Hrs Hl Ht Hq.
  pose proof (lookup_lt_Some _ _ _ Ht) as Hlt.
  unfold onUpstream. rewrite Hku, Hrs.
  unfold emit. simpl. rewrite list_lookup_alter_eq, Hku. simpl. rewrite Hl.
  unfold listening, connector_listeners. simpl.
  unfold reject. simpl. rewrite Ht.
  unfold drain. simpl. rewrite Hq. simpl.
  unfold runMicrotask. simpl. rewrite list_lookup_insert_eq by done.
  unfold setupCatch.
  apply Session_eq; simpl; try done.
  - by apply alter_lookup.
  - apply list_insert_insert_eq.
  - by rewrite <- !app_assoc.
Qed.

Lemma invariant_open_pending (s : Session) (u : nat) (k : Socket) (t : nat) :
  invariant s ->
  sockets s !! u = Some k ->
  socket_ok (tasks s) u k ->
  readyState k = CONNECTING ->
  invariant (onUpstream JSON_parse u U_open s).
Proof.
  intros Hs Hku Hok Hrs.
  destruct Hok as [t' Hl Hsent Ht _|? ? ? ? ? ?|? ? ? ? ? ? ?]; try done.
  destruct Hs as [Hk Ha He Hr Hj Ho Hq Hy Hf].
  rewrite (onUpstream_open_pending s u k t') by done.
  pose proof (lookup_lt_Some _ _ _ Ht) as Hlt.
  pose proof (lookup_lt_Some _ _ _ Hku) as Hltu.
  split; simpl; try done.
  - intros u' k' [(<- & <- & _)|[Hne Hu']]%list_lookup_insert_Some.
    + eapply (Live _ _ _ t' []); try done.
      * simpl. by rewrite Hsent.
      * by apply list_lookup_insert_eq.
    + eapply socket_ok_insert; eauto; congruence.
  - intros t1 u1 [(_ & ? & _)|[Hne Ht1]]%list_lookup_insert_Some; [done|].
    destruct (Ha _ _ Ht1) as (k1 & Hk1 & Hl1).
    rewrite list_lookup_insert_ne; [eauto|].
    intros <-. rewrite Hku in Hk1. injection Hk1 as <-.
    rewrite Hl in Hl1. injection Hl1 as ->. done.
  - intros t1 u1 [(<- & [= <-] & _)|[Hne Ht1]]%list_lookup_insert_Some.
    + eexists. split; [by apply list_lookup_insert_eq | done].
    + destruct (He _ _ Ht1) as (k1 & Hk1 & Hl1).
      rewrite list_lookup_insert_ne; [eauto|].
      intros <-. rewrite Hku in Hk1. injection Hk1 as <-.
      rewrite Hl in Hl1. by apply listeners_not_both in Hl1.
  - intros t1 u1 [(_ & ? & _)|[_ Ht1]]%list_lookup_insert_Some; [done | by eapply Hr].
  - intros t1 e [(_ & ? & _)|[_ Ht1]]%list_lookup_insert_Some; [done | by eapply Hj].
  - intros u1 [= <-]. eexists _, t'. split; [by apply list_lookup_insert_eq | done].
  - pose proof (count_insert is_failed _ _ _ (Established u) Ht) as Hc.
    simpl in Hc. lia.
Qed.

Lemma invariant_error_pending (s : Session) (u : nat) (k : Socket) (err : JsError) :
  invariant s ->
  sockets s !! u = Some k ->
  socket_ok (tasks s) u k ->
  readyState k = CONNECTING ->
  invariant (onUpstream JSON_parse u (U_error err) s).
Proof.
  intros Hs Hku Hok Hrs.
  destruct Hok as [t' Hl Hsent Ht _|? ? ? ? ? ?|? ? ? ? ? ? ?]; try done.
  destruct Hs as [Hk Ha He Hr Hj Ho Hq Hy Hf].
  rewrite (onUpstream_error_pending s u k t') by done.
  pose proof (lookup_lt_Some _ _ _ Ht) as Hlt.
  pose proof (lookup_lt_Some _ _ _ Hku) as Hltu.
  split; simpl; try done.
  - intros u' k' [(<- & <- & _)|[Hne Hu']]%list_lookup_insert_Some.
    + eapply (Dead _ _ _ t'); try done. by apply list_lookup_insert_eq.
    + eapply socket_ok_insert; eauto; congruence.
  - intros t1 u1 [(_ & ? & _)|[Hne Ht1]]%list_lookup_insert_Some; [done|].
    destruct (Ha _ _ Ht1) as (k1 & Hk1 & Hl1).
    rewrite list_lookup_insert_ne; [eauto|].
    intros <-. rewrite Hku in Hk1. injection Hk1 as <-.
    rewrite Hl in Hl1. injection Hl1 as ->. done.
  - intros t1 u1 [(_ & ? & _)|[Hne Ht1]]%list_lookup_insert_Some; [done|].
    destruct (He _ _ Ht1) as (k1 & Hk1 & Hl1).
    rewrite list_lookup_insert_ne; [eauto|].
    intros <-. rewrite Hku in Hk1. injection Hk1 as <-.
    rewrite Hl in Hl1. by apply listeners_not_both in Hl1.
  - intros t1 u1 [(_ & ? & _)|[_ Ht1]]%list_lookup_insert_Some; [done | by eapply Hr].
  - intros t1 e [(_ & ? & _)|[_ Ht1]]%list_lookup_insert_Some; [done | by eapply Hj].
  - intros u1 Hu1. destruct (Ho _ Hu1) as (k1 & t1 & Hk1 & Hl1).
    rewrite list_lookup_insert_ne; [eauto|].
    intros <-. rewrite Hku in Hk1. injection Hk1 as <-.
    rewrite Hl in Hl1. by apply listeners_not_both in Hl1.
  - intros [?|Hin]%elem_of_app; [done|]. by apply list_elem_of_singleton in Hin.
  - rewrite count_app, Hf. simpl.
    pose proof (count_insert is_failed _ _ _ Failed Ht) as Hc. simpl in Hc. lia.
Qed.

(** *** What they do to a socket that has left the connecting state *)

Lemma invariant_onUpstreamClose (code : Z) (s : Session) :
  invariant s -> invariant (onUpstreamClose code s).
Proof.
  intros Hs. unfold onUpstreamClose. apply invariant_disown.
  case_bool_decide.
  - eapply invariant_frame; [|unfold client_close; by apply frame_with_client].
    eapply invariant_frame; [done | apply frame_log].
  - eapply invariant_frame; [done | apply frame_log].
Qed.

Lemma invariant_onUpstreamError (err : JsError) (s : Session) :
  invariant s -> invariant (onUpstreamError err s).
Proof.
  intros Hs. unfold onUpstreamError. apply invariant_disown.
  case_bool_decide.
  - eapply invariant_frame; [|unfold client_close; by apply frame_with_client].
    eapply invariant_frame;
      [|apply frame_client_send, quiet_openai_connection_failed].
    eapply invariant_frame; [done | apply frame_log].
  - eapply invariant_frame; [done | apply frame_log].
Qed.

(** A listener called for an event other than ['open'], when the
    promise it closes over has settled. *)
Lemma invariant_call (u : nat) (ev : UpstreamEvent) (f : Listener) (s : Session) :
  invariant s ->
  ev <> U_open ->
  (forall t, f = Connector_error t -> forall u', tasks s !! t <> Some (AwaitOpen u')) ->
  invariant (call JSON_parse u ev s f).
Proof.
  intros Hs Hev Hf. destruct f, ev; simpl; try done.
  - unfold reject. simpl.
    destruct (tasks s !! promise) as [[]|] eqn:Ht;
      try (eapply invariant_frame; [done | apply frame_log]).
    by destruct (Hf _ eq_refl u0).
  - eapply invariant_frame; [done | apply frame_log].
  - eapply invariant_frame; [done | apply frame_onUpstreamMessage].
  - by apply invariant_onUpstreamClose.
  - by apply invariant_onUpstreamError.
Qed.

Lemma listening_connector (name : EventName) (t : nat) :
  listening name (connector_listeners t) =
    match name with
    | open_ => [Connector_open t]
    | message_ => []
    | error_ => [Connector_error t]
    | close_ => [Connector_close]
    end.
Proof. by destruct name. Qed.

Lemma listening_live (name : EventName) (t : nat) :
  listening name (connector_listeners t ++ bridge_listeners) =
    match name with
    | open_ => [Connector_open t; Bridge_open]
    | message_ => [Bridge_message]
    | error_ => [Connector_error t; Bridge_error]
    | close_ => [Connector_close; Bridge_close]
    end.
Proof. by destruct name. Qed.

Lemma invariant_fire (r : ReadyState) (u : nat) (k : Socket) (ev : UpstreamEvent) (s : Session) :
  invariant s ->
  sockets s !! u = Some k ->
  readyState k <> CONNECTING ->
  r <> CONNECTING ->
  (r = OPEN -> readyState k = OPEN) ->
  ev <> U_open ->
  invariant (drain (emit JSON_parse u ev (with_sockets (alter (set_readyState r) u) s))).
Proof.
  intros Hs Hku Hc Hrc Hro Hev.
  pose proof (invariant_set_readyState r u k s Hs Hku Hc Hrc Hro) as Hs1.
  set (s1 := with_sockets (alter (set_readyState r) u) s) in *.
  assert (Hemit : invariant (emit JSON_parse u ev s1)).
  { unfold emit.
    destruct (sockets s1 !! u) as [k1|] eqn:Hk1; [|done].
    pose proof (inv_sockets _ Hs1 _ _ Hk1) as Hok.
    assert (Hk1c : readyState k1 <> CONNECTING).
    { subst s1. simpl in Hk1. rewrite list_lookup_alter_eq, Hku in Hk1.
      by injection Hk1 as <-. }
    destruct Hok as [t ? ? ? ?|t Hl _ Ht _ _|t frames Hl _ _ Ht _]; [done| |];
      rewrite Hl, ?listening_connector, ?listening_live;
      destruct ev; try done; cbn [event_name fold_left];
      repeat (apply invariant_call; try done);
      first [ by intros t' [= <-] u'; rewrite Ht | by intros t' [=] ]. }
  rewrite drain_nil; [done | by apply inv_queue].
Qed.

Lemma invariant_onUpstream (u : nat) (ev : UpstreamEvent) (s : Session) :
  invariant s -> invariant (onUpstream JSON_parse u ev s).
Proof.
  intros Hs.
  destruct (sockets s !! u) as [k|] eqn:Hku; [|unfold onUpstream; by rewrite Hku].
  pose proof (inv_sockets _ Hs _ _ Hku) as Hok.
  destruct (readyState k) eqn:Hrs.
  - destruct ev.
    + by eapply invariant_open_pending.
    + unfold onUpstream. by rewrite Hku, Hrs.
    + by eapply invariant_error_pending.
    + unfold onUpstream. by rewrite Hku, Hrs.
  - unfold onUpstream. rewrite Hku, Hrs.
    destruct ev; try done; eapply invariant_fire; eauto; congruence.
  - unfold onUpstream. rewrite Hku, Hrs.
    destruct ev; try done; eapply invariant_fire; eauto; congruence.
  - unfold onUpstream. rewrite Hku, Hrs. by destruct ev.
Qed.

(** *** Every state a session reaches *)

Lemma invariant_onConnect (req : Request) : invariant (onConnect req).
Proof.
  split; simpl; try done.
  intros [=]%list_elem_of_singleton.
Qed.

Lemma invariant_step (s : Session) (e : Event) :
  invariant s -> invariant (step JSON_parse MODEL_NAME deployment s e).
Proof.
  intros Hs. destruct e; simpl.
  - by apply invariant_onMessage.
  - eapply invariant_frame; [done | apply frame_onPong].
  - by apply invariant_onClose.
  - by apply invariant_onError.
  - by apply invariant_onFetch.
  - by apply invariant_onUpstream.
  - eapply invariant_frame; [done | apply frame_heartbeat].
Qed.

Lemma invariant_run (s : Session) (trace : list Event) :
  invariant s -> invariant (run JSON_parse MODEL_NAME deployment s trace).
Proof.
  intros Hs. unfold run. apply fold_left_preserves; [done|].
  intros. by apply invariant_step.
Qed.

Lemma invariant_reachable (req : Request) (trace : list Event) :
  invariant (run JSON_parse MODEL_NAME deployment (onConnect req) trace).
Proof. apply invariant_run, invariant_onConnect. Qed.

(* ===================================================================== *)
(** ** The message translator *)
(* ===================================================================== *)

Lemma sends_nil (c : Client) : sends [] c = c.
Proof. destruct c. unfold sends. simpl. by rewrite app_nil_r. Qed.

Lemma is_string_false (v : option json) (lit : string) :
  v <> Some (JStr lit) -> JS.is_string v lit = false.
Proof.
  destruct v as [[]|]; simpl; try done.
  intros Hv. destruct (String.eqb_spec s lit) as [->|]; [by destruct Hv | done].
Qed.

Lemma member_read (m : json) (k : string) :
  m <> JNull -> JS.member (Some m) k = Return (JS.read m k).
Proof. by destruct m. Qed.


(* ===================================================================== *)
(** ** The client's messages *)
(* ===================================================================== *)

(** A text that is a well-formed start command: it parses and its
    [action] is the string "start". *)
Definition is_start_command (text : string) : bool :=
  match JSON_parse text with
  | Some msg => JS.is_string (JS.read msg "action") "start"
  | None => false
  end.

Lemma upstream_open_log (l : LogLine) (s : Session) :
  upstream_open (log l s) = upstream_open s.
Proof. done. Qed.

Lemma upstream_open_inv (s : Session) :
  upstream_open s = true ->
  exists u k, upstream (client s) = Some u /\ sockets s !! u = Some k /\ readyState k = OPEN.
Proof.
  unfold upstream_open. destruct (upstream (client s)) as [u|]; [|done].
  destruct (sockets s !! u) as [k|] eqn:Hu; [|done].
  intros Hk%bool_decide_eq_true. by exists u, k.
Qed.

Lemma or_default (a : option json) (d : json) :
  JS.truthy (Some d) = true ->
  exists v, a ||| Some d = Some v /\ JS.truthy (Some v) = true.
Proof.
  intros Hd. unfold JS.or. destruct (JS.truthy a) eqn:Ha; [|eauto].
  destruct a as [v|]; [eauto | done].
Qed.

Lemma onCommand_start (msg : json) (s : Session) :
  JS.is_string (JS.read msg "action") "start" = true ->
  (upstream_open s = true ->
     (onCommand MODEL_NAME msg s).2 = false /\
     answers s (onCommand MODEL_NAME msg s).1 [Json upstream_already_started]) /\
  (upstream_open s = false ->
     (onCommand MODEL_NAME msg s).2 = false /\
     exists model,
       JS.read msg "model" ||| JS.of_env MODEL_NAME ||| Some (JStr "gpt-4o-transcribe")
         = Some model /\
       accepted s (onCommand MODEL_NAME msg s).1 model).
Proof.
  intros Hstart. unfold onCommand.
  assert (Hm : msg <> JNull) by (by intros ->).
  rewrite (member_read msg "action" Hm), Hstart, upstream_open_log.
  split; intros ->; simpl; [by repeat split|].
  split; [done|].
  destruct (or_default (JS.read msg "model" ||| JS.of_env MODEL_NAME) (JStr "gpt-4o-transcribe"))
    as (v & Hv & Htruthy); [done|].
  exists v. split; [done|].
  repeat split; simpl; try done.
  rewrite Hv. unfold JS.or at 1. by rewrite Htruthy.
Qed.

(** A start command that finds no open upstream begins a run. *)
Lemma start_accepted (text : string) (msg : json) (s : Session) :
  JSON_parse text = Some msg ->
  JS.is_string (JS.read msg "action") "start" = true ->
  upstream_open s = false ->
  exists model,
    JS.read msg "model" ||| JS.of_env MODEL_NAME ||| Some (JStr "gpt-4o-transcribe")
      = Some model /\
    accepted s (onMessage JSON_parse MODEL_NAME deployment (Str text) s) model.
Proof.
  intros Hparse Hstart Hidle.
  destruct (onCommand_start msg s Hstart) as [_ Haccept].
  destruct (Haccept Hidle) as [Hthrown Haccepted].
  unfold onMessage, route_onMessage, server_onMessage.
  destruct deployment; simpl; rewrite Hparse;
    destruct (onCommand MODEL_NAME msg s) as [s1 thrown]; simpl in *; by subst.
Qed.

(** A start command that finds an open upstream is answered and
    dropped. *)
Lemma start_rejected (text : string) (msg : json) (s : Session) :
  JSON_parse text = Some msg ->
  JS.is_string (JS.read msg "action") "start" = true ->
  upstream_open s = true ->
  answers s (onMessage JSON_parse MODEL_NAME deployment (Str text) s)
    [Json upstream_already_started].
Proof.
  intros Hparse Hstart Hopen.
  destruct (onCommand_start msg s Hstart) as [Hreject _].
  destruct (Hreject Hopen) as [Hthrown Hanswers].
  unfold onMessage, route_onMessage, server_onMessage.
  destruct deployment; simpl; rewrite Hparse;
    destruct (onCommand MODEL_NAME msg s) as [s1 thrown]; simpl in *; by subst.
Qed.


Lemma forwardAudio_spec (bytes : string) (s : Session) :
  (upstream_open s = true -> forwarded bytes s (forwardAudio bytes s)) /\
  (upstream_open s = false -> forwardAudio bytes s = s).
Proof.
  unfold forwardAudio. split; intros Hup; rewrite Hup; [|done].
  destruct (upstream_open_inv s Hup) as (u & k & Hu & Hk & Hopen).
  rewrite Hu. exists u, k. repeat split; simpl; try done.
  by apply alter_lookup.
Qed.

(** C9 (as amended).  A text payload that is not a well-formed start
    command (a text that does not parse, or that parses to something
    else) and, in the standalone server, a [Buffer] whose text parses to
    something other than [null] and other than a start command, is
    logged and dropped: the listener returns, at least one line is
    logged, and neither the client, the sockets (nothing goes upstream),
    the runs nor the requests change.  The standalone server reads every
    payload as a command first and does not tell malformed text in a
    [Buffer] from audio: a [Buffer] whose text does not parse is not
    logged; it goes upstream as an append message when the client holds
    an open upstream, and is dropped without a trace when it holds
    none.  A [Buffer] whose text is [null] is logged as received and
    then treated as audio in the same way. *)
Theorem C9_other_payloads_dropped (m : Message) (s : Session) :
  is_start_command (toString m) = false ->
  let s' := onMessage JSON_parse MODEL_NAME deployment m s in
  ((exists text, m = Str text) \/
   (deployment = Server /\
    exists msg, JSON_parse (toString m) = Some msg /\ msg <> JNull) ->
   only_logged s s') /\
  (forall bytes,
     deployment = Server -> m = Buf bytes -> JSON_parse bytes = None ->
     console s' = console s /\
     (upstream_open s = true -> forwarded bytes s s') /\
     (upstream_open s = false -> s' = s)) /\
  (forall bytes,
     deployment = Server -> m = Buf bytes -> JSON_parse bytes = Some JNull ->
     s' = forwardAudio bytes (log (L_ReceivedJSON (clientIp s) JNull) s)).
Proof.
  intros Hcmd. cbv zeta. split; [|split].
  - unfold is_start_command in Hcmd.
    unfold onMessage, route_onMessage, server_onMessage. intros Hkind.
    assert (Hlogged : forall s1 l, only_logged s s1 -> only_logged s (log l s1)).
    { intros s1 l (? & ? & ? & ? & ? & ? & lines & ? & Hlines).
      repeat split; simpl; try done.
      exists (lines ++ [l]). split; [by destruct lines|].
      by rewrite Hlines, app_assoc. }
    assert (Hfirst : forall l, only_logged s (log l s)).
    { intros l. repeat split. by exists [l]. }
    assert (Hmsg : forall msg, JSON_parse (toString m) = Some msg ->
              exists s1 thrown, onCommand MODEL_NAME msg s = (s1, thrown) /\
                only_logged s s1 /\ (thrown = true -> msg = JNull)).
    { intros msg Hp. rewrite Hp in Hcmd. unfold onCommand.
      assert (Hm : msg = JNull \/ msg <> JNull) by (destruct msg; auto).
      destruct Hm as [->|Hm]; [simpl; eauto 6|].
      rewrite (member_read msg "action" Hm), Hcmd. eexists _, _.
      split; [reflexivity|]. split; [apply Hfirst | done]. }
    destruct m as [text|bytes]; cbn [toString] in *.
    + destruct (JSON_parse text) as [msg|] eqn:Hp.
      * destruct (Hmsg msg eq_refl) as (s1 & thrown & -> & Hs1 & _).
        destruct deployment, thrown; simpl; auto.
      * destruct deployment; simpl; auto.
    + destruct Hkind as [[text [=]]|[Hserver (msg & Hp & Hnull)]].
      rewrite Hserver. rewrite Hp.
      destruct (Hmsg msg Hp) as (s1 & thrown & -> & Hs1 & Hthrown).
      destruct thrown; simpl; [|done]. by destruct Hnull; apply Hthrown.
  - intros bytes Hserver -> Hp.
    assert (Hs' : onMessage JSON_parse MODEL_NAME deployment (Buf bytes) s
                  = forwardAudio bytes s).
    { unfold onMessage, server_onMessage. rewrite Hserver. simpl. by rewrite Hp. }
    rewrite Hs'. destruct (forwardAudio_spec bytes s) as [Hopen Hidle].
    split; [|by split].
    destruct (upstream_open s) eqn:Hup.
    + by destruct (Hopen eq_refl) as (u & k & _ & _ & _ & _ & _ & _ & _ & _ & _ & Hc).
    + by rewrite (Hidle eq_refl).
  - intros bytes Hserver -> Hp.
    unfold onMessage, server_onMessage. rewrite Hserver. simpl. by rewrite Hp.
Qed.

(** A frame sent upstream changes the socket it is sent on. *)
Lemma transmit_changes (v : json) (k : Socket) : transmit v k <> k.
Proof.
  intros Hk. apply (f_equal (fun k => length (sent k))) in Hk.
  simpl in Hk. rewrite length_app in Hk. simpl in Hk. lia.
Qed.

(** C3 (as amended). For every binary frame that the deployment
    treats as audio (in the route module every [Buffer]; in the
    standalone server every [Buffer] whose text does not parse as JSON)
    an append message is produced if and only if the client holds an
    upstream whose [readyState] is open, and it is produced on that
    upstream; any other such frame is dropped: the session is left
    exactly as it was, nothing being queued. *)
Theorem C3_audio_forwarding (bytes : string) (s : Session) :
  deployment = Route \/ JSON_parse bytes = None ->
  let s' := onMessage JSON_parse MODEL_NAME deployment (Buf bytes) s in
  (upstream_open s = true -> forwarded bytes s s') /\
  (upstream_open s = false -> s' = s) /\
  (forwarded bytes s s' <-> upstream_open s = true).
Proof.
  intros Haudio. cbv zeta.
  assert (Hs' : onMessage JSON_parse MODEL_NAME deployment (Buf bytes) s
                = forwardAudio bytes s).
  { unfold onMessage, server_onMessage. destruct deployment; [done|].
    destruct Haudio as [?|Hp]; [done|]. simpl. by rewrite Hp. }
  rewrite Hs'. destruct (forwardAudio_spec bytes s) as [Hopen Hidle].
  repeat split; try done.
  intros (u & k & _ & Hk & _ & Hsockets & _).
  destruct (upstream_open s) eqn:Hup; [done|].
  rewrite (Hidle eq_refl) in Hsockets.
  apply (f_equal (fun ks => ks !! u)) in Hsockets.
  rewrite list_lookup_insert_eq in Hsockets by (by eapply lookup_lt_Some).
  rewrite Hk in Hsockets. injection Hsockets as Hsame.
  by destruct (transmit_changes (audioEvent bytes) k).
Qed.

(* ===================================================================== *)
(** ** The liveness monitor *)
(* ===================================================================== *)

Lemma keeps_liveness_refl (s : Session) : keeps_liveness s s.
Proof. by repeat split. Qed.

Lemma keeps_liveness_trans (s1 s2 s3 : Session) :
  keeps_liveness s1 s2 -> keeps_liveness s2 s3 -> keeps_liveness s1 s3.
Proof. intros (? & ? & ?) (? & ? & ?). repeat split; try congruence. auto. Qed.

Lemma keeps_liveness_fold {B} (f : Session -> B -> Session) (l : list B) (s : Session) :
  (forall s b, keeps_liveness s (f s b)) -> keeps_liveness s (fold_left f l s).
Proof.
  intros Hf. revert s. induction l as [|b l IH]; intros s; simpl.
  - apply keeps_liveness_refl.
  - eapply keeps_liveness_trans; [apply Hf | apply IH].
Qed.

(** A change of the client that keeps the flag and the record, and
    does not close the client. *)
Lemma keeps_liveness_with_client (f : Client -> Client) (s : Session) :
  isAlive (f (client s)) = isAlive (client s) ->
  terminated (f (client s)) = terminated (client s) ->
  (client_readyState (client s) <> CLOSED -> client_readyState (f (client s)) <> CLOSED) ->
  keeps_liveness s (with_client f s).
Proof.
  intros Ha Ht Hr. repeat split; simpl; try done.
  unfold registered. simpl. rewrite !negb_true_iff, !bool_decide_eq_false. done.
Qed.

Ltac liveness :=
  repeat first
    [ apply keeps_liveness_refl
    | by repeat split
    | by apply keeps_liveness_with_client
    | unfold client_send, client_close; by apply keeps_liveness_with_client
    | eapply keeps_liveness_trans; [|by repeat split]
    | eapply keeps_liveness_trans;
        [|unfold client_send, client_close; by apply keeps_liveness_with_client] ].

Lemma keeps_liveness_onCommand (msg : json) (s : Session) :
  keeps_liveness s (onCommand MODEL_NAME msg s).1.
Proof. unfold onCommand. repeat case_match; simpl; liveness. Qed.

Lemma keeps_liveness_forwardAudio (bytes : string) (s : Session) :
  keeps_liveness s (forwardAudio bytes s).
Proof. unfold forwardAudio. repeat case_match; liveness. Qed.

Lemma keeps_liveness_onMessage (m : Message) (s : Session) :
  keeps_liveness s (onMessage JSON_parse MODEL_NAME deployment m s).
Proof.
  unfold onMessage, route_onMessage, server_onMessage.
  pose proof keeps_liveness_onCommand as Hcmd.
  pose proof keeps_liveness_forwardAudio as Haudio.
  destruct deployment, m as [text|bytes]; simpl;
    repeat match goal with
    | |- context [JSON_parse ?x] => destruct (JSON_parse x) as [msg|]
    | |- context [onCommand MODEL_NAME ?msg s] =>
        specialize (Hcmd msg s); destruct (onCommand MODEL_NAME msg s) as [s' []]; simpl in Hcmd
    end;
    try done;
    try (eapply keeps_liveness_trans; [exact Hcmd|]);
    first [ apply Haudio | by repeat split | idtac ].
Qed.

Lemma keeps_liveness_setupCatch (t : nat) (err : JsError) (s : Session) :
  keeps_liveness s (setupCatch t err s).
Proof. by repeat split. Qed.

Lemma keeps_liveness_onFetch (t : nat) (r : FetchResult) (s : Session) :
  keeps_liveness s (onFetch t r s).
Proof.
  unfold onFetch. destruct (tasks s !! t) as [[]|]; try apply keeps_liveness_refl.
  destruct (mintEphemeralToken_resume r) as [logged [tok|err]].
  - eapply keeps_liveness_trans; [|by repeat split].
    apply keeps_liveness_fold. by repeat split.
  - eapply keeps_liveness_trans; [|apply keeps_liveness_setupCatch].
    apply keeps_liveness_fold. by repeat split.
Qed.

Lemma keeps_liveness_onUpstreamMessage (data : string) (s : Session) :
  keeps_liveness s (onUpstreamMessage JSON_parse data s).
Proof. unfold onUpstreamMessage. repeat case_match; liveness. Qed.

Lemma keeps_liveness_call (u : nat) (ev : UpstreamEvent) (s : Session) (f : Listener) :
  keeps_liveness s (call JSON_parse u ev s f).
Proof.
  destruct f, ev; simpl; try apply keeps_liveness_refl.
  - unfold resolve. simpl. repeat case_match; liveness.
  - unfold reject. simpl. repeat case_match; liveness.
  - liveness.
  - liveness.
  - apply keeps_liveness_onUpstreamMessage.
  - unfold onUpstreamClose. case_bool_decide; liveness.
  - unfold onUpstreamError. case_bool_decide; liveness.
Qed.

Lemma keeps_liveness_drain (s : Session) : keeps_liveness s (drain s).
Proof.
  unfold drain. eapply keeps_liveness_trans; [|apply keeps_liveness_fold].
  - by repeat split.
  - intros s1 t. unfold runMicrotask, afterOpen.
    repeat case_match; try apply keeps_liveness_refl; by repeat split.
Qed.

Lemma keeps_liveness_onUpstream (u : nat) (ev : UpstreamEvent) (s : Session) :
  keeps_liveness s (onUpstream JSON_parse u ev s).
Proof.
  assert (Hfire : forall r,
    keeps_liveness s
      (drain (emit JSON_parse u ev (with_sockets (alter (set_readyState r) u) s)))).
  { intros r. eapply keeps_liveness_trans; [|apply keeps_liveness_drain].
    unfold emit. case_match; [|by repeat split].
    eapply keeps_liveness_trans; [|apply keeps_liveness_fold, keeps_liveness_call].
    by repeat split. }
  unfold onUpstream. repeat case_match; first [apply keeps_liveness_refl | apply Hfire].
Qed.

Lemma keeps_liveness_closeUpstream (s : Session) : keeps_liveness s (closeUpstream s).
Proof. unfold closeUpstream. repeat case_match; liveness. Qed.

(** The events other than a pong, a heartbeat and the client's close. *)
Lemma keeps_liveness_step (s : Session) (e : Event) :
  is_pong e = false -> is_heartbeat e = false -> is_close e = false ->
  keeps_liveness s (step JSON_parse MODEL_NAME deployment s e).
Proof.
  destruct e; simpl; try done; intros _ _ _.
  - apply keeps_liveness_onMessage.
  - unfold onError. eapply keeps_liveness_trans; [|apply keeps_liveness_closeUpstream].
    eapply keeps_liveness_trans; [|by repeat split].
    apply keeps_liveness_with_client; simpl; try done.
    by destruct (client_readyState (client s)).
  - apply keeps_liveness_onFetch.
  - apply keeps_liveness_onUpstream.
Qed.

(** The interval callback sweeps every session by itself. *)
Lemma heartbeat_all_lookup (wss_clients : list Session) (i : nat) :
  heartbeat_all wss_clients !! i = heartbeat <$> wss_clients !! i.
Proof. apply list_lookup_fmap. Qed.

(** The client's close touches neither the flag nor the record. *)
Lemma onClose_liveness (code : Z) (s : Session) :
  isAlive (client (onClose code s)) = isAlive (client s) /\
  terminated (client (onClose code s)) = terminated (client s).
Proof.
  unfold onClose.
  destruct (keeps_liveness_closeUpstream
              (log (L_ClientDisconnected (clientIp s) code)
                 (with_client (set_client_readyState CLOSED) s))) as (Ha & Ht & _).
  simpl in *. by rewrite Ha, Ht.
Qed.

Lemma heartbeat_registered (s : Session) :
  registered s = true ->
  isAlive (client (heartbeat s)) = false /\
  terminated (client (heartbeat s)) = terminated (client s) || negb (isAlive (client s)) /\
  registered (heartbeat s) = true.
Proof.
  intros Hreg. unfold heartbeat, sweep. rewrite Hreg.
  destruct (isAlive (client s)) eqn:Ha; simpl.
  - by rewrite orb_false_r.
  - rewrite orb_true_r. split; [done|]. split; [done|].
    unfold registered in *. simpl in *.
    apply negb_true_iff, bool_decide_eq_false.
    apply negb_true_iff, bool_decide_eq_false in Hreg.
    by destruct (client_readyState (client s)).
Qed.

(** With no pong, the flag is cleared by the first sweep and the second
    sweep terminates. *)
Lemma unanswered_run (trace : list Event) (s : Session) :
  registered s = true ->
  Forall (fun e => is_pong e = false /\ is_close e = false) trace ->
  terminated (client (run JSON_parse MODEL_NAME deployment s trace)) =
    terminated (client s)
    || (if isAlive (client s) then (2 <=? count is_heartbeat trace)%nat
        else (1 <=? count is_heartbeat trace)%nat).
Proof.
  intros Hreg Htrace. revert s Hreg.
  induction Htrace as [|e trace [Hpong Hclose] _ IH]; intros s Hreg; simpl.
  - destruct (isAlive (client s)); by rewrite orb_false_r.
  - destruct (is_heartbeat e) eqn:Hbeat.
    + destruct e; try done. simpl.
      destruct (heartbeat_registered s Hreg) as (Ha & Ht & Hr).
      rewrite (IH _ Hr), Ha, Ht.
      destruct (isAlive (client s)), (terminated (client s)),
        (count is_heartbeat trace) as [|[|n]]; done.
    + destruct (keeps_liveness_step s e Hpong Hbeat Hclose) as (Ha & Ht & Hr).
      rewrite (IH _ (Hr Hreg)), Ha, Ht. done.
Qed.

(** While every ping is answered before the next sweep, no sweep
    terminates. *)
Lemma answered_run (trace : list Event) (pending : bool) (s : Session) :
  terminated (client s) = false ->
  (pending = false -> isAlive (client s) = true) ->
  answered is_heartbeat is_pong pending trace = true ->
  terminated (client (run JSON_parse MODEL_NAME deployment s trace)) = false.
Proof.
  revert pending s. induction trace as [|e trace IH]; intros pending s Hterm Halive; simpl;
    [done|].
  destruct (is_heartbeat e) eqn:Hbeat.
  - destruct e; try done. intros [Hp Hrest]%andb_true_iff.
    apply negb_true_iff in Hp. subst pending.
    apply (IH true); [|done|done].
    simpl. unfold heartbeat, sweep. rewrite (Halive eq_refl).
    by destruct (registered s).
  - destruct (is_pong e) eqn:Hpong.
    + destruct e; try done. intros Hrest. by apply (IH false).
    + intros Hrest. apply (IH pending); [| |done].
      * destruct (is_close e) eqn:Hclose.
        -- destruct e; try done. simpl.
           destruct (onClose_liveness code s) as [_ ->]. done.
        -- destruct (keeps_liveness_step s e Hpong Hbeat Hclose) as (_ & -> & _). done.
      * intros Hp. destruct (is_close e) eqn:Hclose.
        -- destruct e; try done. simpl.
           destruct (onClose_liveness code s) as [-> _]. auto.
        -- destruct (keeps_liveness_step s e Hpong Hbeat Hclose) as (-> & _ & _). auto.
Qed.

(** C7. Under the sweep, a client connection that never answers a ping
    (no pong arrives, and the connection does not close by itself) is
    terminated by the second sweep and not before: after a run of events
    it has been terminated exactly when two sweeps or more have passed.
    A client connection that answers every ping with a pong before the
    next sweep is never terminated, whatever else happens. *)
Theorem C7_liveness_monitor (req : Request) :
  (forall trace,
     Forall (fun e => is_pong e = false /\ is_close e = false) trace ->
     terminated (client (run JSON_parse MODEL_NAME deployment (onConnect req) trace))
       = (2 <=? count is_heartbeat trace)%nat) /\
  (forall trace,
     answered is_heartbeat is_pong false trace = true ->
     terminated (client (run JSON_parse MODEL_NAME deployment (onConnect req) trace))
       = false).
Proof.
  split; intros trace Htrace.
  - by rewrite unanswered_run.
  - by apply (answered_run trace false).
Qed.

(* ===================================================================== *)
(** ** Closure of the two connections *)
(* ===================================================================== *)

(** The reachable states, named. *)
Definition reached (req : Request) (trace : list Event) : Session :=
  run JSON_parse MODEL_NAME deployment (onConnect req) trace.

Lemma onUpstream_close_live (s : Session) (u : nat) (k : Socket) (t : nat)
    (code : Z) (reason : string) :
  microtasks s = [] ->
  sockets s !! u = Some k ->
  listeners k = connector_listeners t ++ bridge_listeners ->
  readyState k = OPEN \/ readyState k = CLOSING ->
  onUpstream JSON_parse u (U_close code reason) s =
    onUpstreamClose code
      (log (Lib_Closed code reason) (with_sockets (alter (set_readyState CLOSED) u) s)).
Proof.
  intros Hq Hku Hl Hrs. unfold onUpstream. rewrite Hku.
  assert (Hfire :
    drain (emit JSON_parse u (U_close code reason)
             (with_sockets (alter (set_readyState CLOSED) u) s)) =
    onUpstreamClose code
      (log (Lib_Closed code reason) (with_sockets (alter (set_readyState CLOSED) u) s))).
  { unfold emit. cbn [sockets with_sockets].
    rewrite list_lookup_alter_eq, Hku. cbn [fmap option_fmap option_map listeners set_readyState].
    rewrite Hl, listening_live. cbn [event_name fold_left call].
    apply drain_nil. unfold onUpstreamClose. simpl. by case_bool_decide. }
  by destruct Hrs as [->| ->].
Qed.

Lemma onUpstream_error_live (s : Session) (u : nat) (k : Socket) (t : nat) (err : JsError) :
  microtasks s = [] ->
  sockets s !! u = Some k ->
  listeners k = connector_listeners t ++ bridge_listeners ->
  tasks s !! t = Some (Established u) ->
  readyState k = OPEN \/ readyState k = CLOSING ->
  onUpstream JSON_parse u (U_error err) s =
    onUpstreamError err
      (log (Lib_ConnectionError err) (with_sockets (alter (set_readyState CLOSING) u) s)).
Proof.
  intros Hq Hku Hl Ht Hrs. unfold onUpstream. rewrite Hku.
  assert (Hfire :
    drain (emit JSON_parse u (U_error err)
             (with_sockets (alter (set_readyState CLOSING) u) s)) =
    onUpstreamError err
      (log (Lib_ConnectionError err) (with_sockets (alter (set_readyState CLOSING) u) s))).
  { unfold emit. cbn [sockets with_sockets].
    rewrite list_lookup_alter_eq, Hku. cbn [fmap option_fmap option_map listeners set_readyState].
    rewrite Hl, listening_live. cbn [event_name fold_left call].
    unfold reject. cbn [tasks log with_sockets]. rewrite Ht.
    apply drain_nil. unfold onUpstreamError. simpl. by case_bool_decide. }
  by destruct Hrs as [->| ->].
Qed.

Lemma closeUpstream_open (s : Session) (u : nat) (k : Socket) :
  upstream (client s) = Some u -> sockets s !! u = Some k -> readyState k = OPEN ->
  sockets (closeUpstream s) !! u = Some (shut k).
Proof.
  intros Hu Hk Hopen. unfold closeUpstream, upstream_open.
  rewrite Hu, Hk, Hopen. simpl. by rewrite list_lookup_alter_eq, Hk.
Qed.

(** C5. Closure is symmetric.  In every state a session reaches, with
    [u] the upstream the client holds: when the client connection closes
    or errors while [u] is open, [close()] is called on [u] in that same
    step; when [u] closes, the client's reference to it is cleared and
    the client connection, if it is still open, is closed, nothing being
    sent; when [u] errors, the reference is cleared and the client
    connection, if it is still open, is sent
    [{error: "openai_connection_failed", detail}] and then closed. *)
Theorem C5_closure_symmetric (req : Request) (trace : list Event) (u : nat) (k : Socket) :
  let s := reached req trace in
  let next := step JSON_parse MODEL_NAME deployment s in
  upstream (client s) = Some u ->
  sockets s !! u = Some k ->
  (readyState k = OPEN -> forall code err,
     sockets (next (E_close code)) !! u = Some (shut k) /\
     sockets (next (E_error err)) !! u = Some (shut k)) /\
  (readyState k = OPEN \/ readyState k = CLOSING -> forall code reason,
     client (next (E_upstream u (U_close code reason))) =
       set_upstream None
         (if bool_decide (client_readyState (client s) = OPEN)
          then hangup (client s) else client s)) /\
  (readyState k = OPEN \/ readyState k = CLOSING -> forall err,
     client (next (E_upstream u (U_error err))) =
       set_upstream None
         (if bool_decide (client_readyState (client s) = OPEN)
          then hangup (push (Json (openai_connection_failed (message err))) (client s))
          else client s)).
Proof.
  intros s next Hu Hk.
  pose proof (invariant_reachable req trace) as Hinv. change (invariant s) in Hinv.
  destruct (inv_owned _ Hinv _ Hu) as (k' & t & Hk' & Hl).
  rewrite Hk in Hk'. injection Hk' as <-.
  destruct (socket_ok_live _ _ _ _ (inv_sockets _ Hinv _ _ Hk) Hl)
    as (frames & _ & _ & Ht & _).
  pose proof (inv_queue _ Hinv) as Hq.
  split; [|split].
  - intros Hopen code err. subst next. cbn [step]. unfold onClose, onError.
    split; by apply closeUpstream_open.
  - intros Hrs code reason. subst next. cbn [step].
    rewrite (onUpstream_close_live s u k t) by done.
    unfold onUpstreamClose. cbn [client log with_sockets].
    by case_bool_decide.
  - intros Hrs err. subst next. cbn [step].
    rewrite (onUpstream_error_live s u k t) by done.
    unfold onUpstreamError. cbn [client log with_sockets].
    by case_bool_decide.
Qed.

(* ===================================================================== *)
(** ** Setting up the upstream *)
(* ===================================================================== *)

Lemma logs_only (ls : list LogLine) (s : Session) :
  let s' := fold_left (fun s l => log l s) ls s in
  clientIp s' = clientIp s /\ client s' = client s /\ sockets s' = sockets s /\
  tasks s' = tasks s /\ microtasks s' = microtasks s /\ requests s' = requests s.
Proof.
  revert s. induction ls as [|l ls IH]; intros s; simpl; [done|].
  destruct (IH (log l s)) as (? & ? & ? & ? & ? & ?). by repeat split.
Qed.

(** A socket on whose promise a run waits is connecting, with the
    connector's listeners only and nothing sent, and is not the upstream
    the client holds. *)
Lemma awaited_socket (s : Session) (t u : nat) :
  invariant s ->
  tasks s !! t = Some (AwaitOpen u) ->
  exists k, sockets s !! u = Some k /\ listeners k = connector_listeners t /\
            readyState k = CONNECTING /\ sent k = [] /\ upstream (client s) <> Some u.
Proof.
  intros Hinv Ht.
  destruct (inv_await _ Hinv _ _ Ht) as (k & Hk & Hl).
  exists k. split; [done|]. split; [done|].
  destruct (inv_sockets _ Hinv _ _ Hk) as [t' Hl' ? Ht' ?|t' Hl' ? Ht' ? ?|t' ? Hl' ? ? ? ?].
  - repeat split; try done. intros Hu.
    destruct (inv_owned _ Hinv _ Hu) as (k' & t'' & Hk' & Hl'').
    rewrite Hk in Hk'. injection Hk' as <-. rewrite Hl in Hl''.
    by apply listeners_not_both in Hl''.
  - rewrite Hl in Hl'. injection Hl' as <-. by rewrite Ht in Ht'.
  - rewrite Hl in Hl'. by apply listeners_not_both in Hl'.
Qed.

Lemma onFetch_failure (s : Session) (t : nat) (r : FetchResult) (err : JsError) :
  tasks s !! t = Some AwaitMint ->
  (mintEphemeralToken_resume r).2 = Throw err ->
  setup_failed_outcome s (onFetch t r s) t err /\ sockets (onFetch t r s) = sockets s.
Proof.
  intros Ht Hr. unfold onFetch. rewrite Ht.
  destruct (mintEphemeralToken_resume r) as [logged result]. simpl in Hr. subst result.
  destruct (logs_only logged s) as (_ & Hc & Hk & Hts & Hq & Hrq).
  unfold setup_failed_outcome, setupCatch, upstream_open. simpl.
  by rewrite Hc, Hk, Hts, Hq, Hrq.
Qed.

Lemma onUpstream_failure (s : Session) (t u : nat) (err : JsError) :
  invariant s ->
  tasks s !! t = Some (AwaitOpen u) ->
  setup_failed_outcome s (onUpstream JSON_parse u (U_error err) s) t err /\
  upstream (client s) <> Some u /\
  exists k, sockets s !! u = Some k /\
            sockets (onUpstream JSON_parse u (U_error err) s)
              = <[u := set_readyState CLOSING k]> (sockets s).
Proof.
  intros Hinv Ht.
  destruct (awaited_socket s t u Hinv Ht) as (k & Hk & Hl & Hrs & _ & Hu).
  rewrite (onUpstream_error_pending s u k t) by (try done; by apply inv_queue).
  split; [|split; [done | by exists k]].
  unfold setup_failed_outcome, upstream_open. simpl. repeat split.
  - destruct (upstream (client s)) as [u'|]; [|done].
    rewrite list_lookup_insert_ne; [done | congruence].
  - symmetry. by apply inv_queue.
Qed.


(** C8. In every state a session reaches: a run that has got past
    [await openOpenAIRealtime(token)] finds the session configuration
    already transmitted on its socket, as the first message; a socket
    whose promise is still awaited is connecting with nothing sent, its
    ['open'] event transmits the configuration and only then lets the run
    go on, and its ['error'] event rejects the promise, so that the run
    ends in the setup catch.  The configuration names the pcm16 audio
    format, a transcription model, server-side voice-activity detection
    for turn detection and the near-field noise-reduction profile. *)
Theorem C8_open_resolves_after_config (req : Request) (trace : list Event) :
  let s := reached req trace in
  let next := step JSON_parse MODEL_NAME deployment s in
  (forall t u, tasks s !! t = Some (Established u) ->
     exists k frames, sockets s !! u = Some k /\ sent k = session_config :: frames) /\
  (forall t u, tasks s !! t = Some (AwaitOpen u) ->
     exists k, sockets s !! u = Some k /\ readyState k = CONNECTING /\ sent k = [] /\
       sockets (next (E_upstream u U_open)) !! u
         = Some (mkSocket OPEN (token k) [session_config]
                          (connector_listeners t ++ bridge_listeners) (closes k)) /\
       tasks (next (E_upstream u U_open)) !! t = Some (Established u) /\
       forall err, tasks (next (E_upstream u (U_error err))) !! t = Some Failed) /\
  (JS.read session_config "input_audio_format" = Some (JStr "pcm16") /\
   JS.opt_member (JS.read session_config "input_audio_transcription") "model"
     = Some (JStr "gpt-4o-transcribe") /\
   JS.opt_member (JS.read session_config "turn_detection") "type"
     = Some (JStr "server_vad") /\
   JS.opt_member (JS.read session_config "input_audio_noise_reduction") "type"
     = Some (JStr "near_field")).
Proof.
  intros s next.
  pose proof (invariant_reachable req trace) as Hinv. change (invariant s) in Hinv.
  split; [|split; [|done]].
  - intros t u Ht. destruct (inv_established _ Hinv _ _ Ht) as (k & Hk & Hl).
    destruct (socket_ok_live _ _ _ _ (inv_sockets _ Hinv _ _ Hk) Hl)
      as (frames & Hsent & _).
    by exists k, frames.
  - intros t u Ht.
    destruct (awaited_socket s t u Hinv Ht) as (k & Hk & Hl & Hrs & Hsent & _).
    pose proof (inv_queue _ Hinv) as Hq.
    pose proof (lookup_lt_Some _ _ _ Ht) as Hlt.
    pose proof (lookup_lt_Some _ _ _ Hk) as Hltu.
    exists k. repeat split; try done; subst next; cbn [step].
    + rewrite (onUpstream_open_pending s u k t) by done.
      cbn [sockets]. rewrite Hsent. by apply list_lookup_insert_eq.
    + rewrite (onUpstream_open_pending s u k t) by done.
      cbn [tasks]. by apply list_lookup_insert_eq.
    + intros err. rewrite (onUpstream_error_pending s u k t) by done.
      cbn [tasks]. by apply list_lookup_insert_eq.
Qed.


End Properties.

(* ===================================================================== *)
(** ** Concrete sessions *)
(* ===================================================================== *)

(** The model run with the reference parser and no [MODEL_NAME]. *)
Definition example_request : Request := mkRequest None (Some "10.0.0.7").

Definition example_step (d : Deployment) : Session -> Event -> Session :=
  step Parser.parse None d.

Definition example_run (d : Deployment) : Session -> list Event -> Session :=
  run Parser.parse None d.

Definition start_command : string :=
  json_text "{'action':'start','lang':'en','model':'m1'}".

Definition start_message : json :=
  JObj [("action", JStr "start"); ("lang", JStr "en"); ("model", JStr "m1")].

(** The credential endpoint answers with a token. *)
Definition minted : FetchResult :=
  Response true 200 "OK" (Return "")
    (Return (JObj [("client_secret", JObj [("value", JStr "ek_1")])])).

(** The credential endpoint refuses. *)
Definition unauthorized : FetchResult :=
  Response false 401 "Unauthorized" (Return "invalid key") (Throw (Error "no body")).

(** A successful start: the command, the token, the upstream's
    ['open'] event. *)
Definition successful_start : list Event :=
  [E_message (Str start_command); E_fetch 0 minted; E_upstream 0 U_open].

Definition started (d : Deployment) : Session :=
  reached Parser.parse None d example_request successful_start.

(** The upstream socket of [started]. *)
Definition configured_socket : Socket :=
  {| readyState := OPEN; token := Some (JStr "ek_1"); sent := [session_config];
     listeners := connector_listeners 0 ++ bridge_listeners; closes := 0 |}.

Example start_command_parses : Parser.parse start_command = Some start_message.
Proof. reflexivity. Qed.

(** The end-to-end scenario of the specification, up to the
    acknowledgment that the bridge never sends. *)
Example end_to_end :
  let s := example_run Route (onConnect example_request)
    (successful_start ++
     [E_message (Buf "abc");
      E_upstream 0 (U_message (json_text
        "{'type':'conversation.item.input_audio_transcription.delta','delta':'hel','item_id':'x1'}"));
      E_upstream 0 (U_message (json_text
        "{'type':'conversation.item.input_audio_transcription.completed','transcript':'hello','item_id':'x1'}"));
      E_close 1000]) in
  client_sent (client s) =
    [Json connected;
     Json (JObj [("type", JStr "partial"); ("text", JStr "hel"); ("item_id", JStr "x1")]);
     Json (JObj [("type", JStr "final"); ("text", JStr "hello"); ("item_id", JStr "x1")])] /\
  (fun k => (readyState k, sent k, closes k)) <$> sockets s =
    [(CLOSING, [session_config; audioEvent "abc"], 1)].
Proof. vm_compute. split; reflexivity. Qed.

(* ===================================================================== *)
(** ** The claims on concrete sessions *)
(* ===================================================================== *)



(** C2 fails on the code.  After a successful start (the token is
    minted, the upstream opens and the configuration is transmitted on
    it, the run of the start branch reaches its end and the client holds
    the open upstream) the client has been sent the connection
    acknowledgment and nothing else: the ['open'] listener that would
    send [{ready: true}] is registered on a socket that has already
    emitted ['open'], as its listeners show.  Nor is the acknowledgment
    sent later: in no state that a session reaches, under any parser,
    default model, deployment and run of events, has the bridge sent
    it. *)
Theorem C2_ready_never_sent :
  (forall d,
     let s := started d in
     tasks s = [Established 0] /\
     upstream (client s) = Some 0 /\
     sockets s = [configured_socket] /\
     client_sent (client s) = [Json connected]) /\
  (forall JSON_parse MODEL_NAME deployment req trace,
     Json ready ∉ client_sent (client (reached JSON_parse MODEL_NAME deployment req trace))).
Proof.
  split.
  - intros []; vm_compute; repeat split; reflexivity.
  - intros JSON_parse MODEL_NAME deployment req trace.
    apply inv_ready, invariant_reachable.
Qed.

(** C3, as stated, fails twice.  In the route module a frame that
    arrives when the client has been sent no [ready] is forwarded as soon
    as the client holds an open upstream.  In the standalone server a
    binary frame whose bytes read as JSON (here the four bytes "1234") is
    taken for a command and produces no append message although the
    client holds an open upstream. *)
Lemma C3_frames_before_ready_and_json_frames :
  (client_sent (client (started Route)) = [Json connected] /\
   sent <$> sockets (example_step Route (started Route) (E_message (Buf "abc")))
     = [[session_config; audioEvent "abc"]]) /\
  (upstream_open (started Server) = true /\
   sent <$> sockets (example_step Server (started Server) (E_message (Buf "1234")))
     = [[session_config]]).
Proof. vm_compute. repeat split; reflexivity. Qed.

Lemma C3_audio_forwarding_witness :
  forwarded "abc" (started Route)
    (example_step Route (started Route) (E_message (Buf "abc"))) /\
  forwarded "abc" (started Server)
    (example_step Server (started Server) (E_message (Buf "abc"))) /\
  example_step Server (onConnect example_request) (E_message (Buf "abc"))
    = onConnect example_request.
Proof.
  split; [|split].
  - apply (C3_audio_forwarding Parser.parse None Route "abc" (started Route));
      [by left | reflexivity].
  - apply (C3_audio_forwarding Parser.parse None Server "abc" (started Server));
      [by right | reflexivity].
  - apply (C3_audio_forwarding Parser.parse None Server "abc" (onConnect example_request));
      [by right | reflexivity].
Defined.

(** The rows of the translation table on concrete upstream payloads. *)
Definition delta_event : string := json_text
  "{'type':'conversation.item.input_audio_transcription.delta','delta':'hel','item_id':'x1'}".
Definition completed_event : string := json_text
  "{'type':'conversation.item.input_audio_transcription.completed','transcript':'hello','item_id':'x1'}".
Definition committed_event : string := json_text
  "{'type':'input_audio_buffer.committed','item_id':'x1'}".
Definition error_event : string := json_text
  "{'type':'error','error':{'message':'boom'}}".
Definition other_event : string := json_text
  "{'type':'transcription_session.updated'}".


Lemma C5_closure_symmetric_witness :
  let s := started Route in
  sockets (example_step Route s (E_close 1000)) !! 0 = Some (shut configured_socket) /\
  sockets (example_step Route s (E_error (Error "EPIPE"))) !! 0
    = Some (shut configured_socket) /\
  client (example_step Route s (E_upstream 0 (U_close 1006 "")))
    = set_upstream None (hangup (client s)) /\
  client (example_step Route s (E_upstream 0 (U_error (Error "ECONNRESET"))))
    = set_upstream None
        (hangup (push (Json (openai_connection_failed "ECONNRESET")) (client s))).
Proof.
  destruct (C5_closure_symmetric Parser.parse None Route example_request successful_start
              0 configured_socket eq_refl eq_refl) as (Hclient & Hclose & Herror).
  split; [|split; [|split]].
  - apply (Hclient eq_refl 1000%Z (Error "EPIPE")).
  - apply (Hclient eq_refl 1000%Z (Error "EPIPE")).
  - exact (Hclose (or_introl eq_refl) 1006%Z "").
  - exact (Herror (or_introl eq_refl) (Error "ECONNRESET")).
Defined.



Lemma C7_liveness_monitor_witness :
  let after trace := terminated (client (example_run Route (onConnect example_request) trace)) in
  after [E_heartbeat; E_message (Buf "abc")] = false /\
  after [E_heartbeat; E_message (Buf "abc"); E_heartbeat] = true /\
  after [E_heartbeat; E_pong; E_heartbeat; E_message (Buf "abc"); E_pong; E_heartbeat] = false.
Proof.
  destruct (C7_liveness_monitor Parser.parse None Route example_request)
    as [Hsilent Hanswering].
  split; [|split].
  - apply (Hsilent [E_heartbeat; E_message (Buf "abc")]). by repeat constructor.
  - apply (Hsilent [E_heartbeat; E_message (Buf "abc"); E_heartbeat]). by repeat constructor.
  - apply (Hanswering
      [E_heartbeat; E_pong; E_heartbeat; E_message (Buf "abc"); E_pong; E_heartbeat]).
    reflexivity.
Defined.

Lemma C8_open_resolves_after_config_witness :
  let s := example_run Route (onConnect example_request)
             [E_message (Str start_command); E_fetch 0 minted] in
  sent <$> sockets s = [[]] /\
  sockets (example_step Route s (E_upstream 0 U_open)) !! 0 = Some configured_socket /\
  tasks (example_step Route s (E_upstream 0 U_open)) !! 0 = Some (Established 0) /\
  tasks (example_step Route s (E_upstream 0 (U_error (Error "ENOTFOUND")))) !! 0
    = Some Failed.
Proof.
  destruct (C8_open_resolves_after_config Parser.parse None Route example_request
              [E_message (Str start_command); E_fetch 0 minted]) as (_ & Hawait & _).
  destruct (Hawait 0 0 eq_refl) as (k & Hk & _ & _ & Hopen & Hrun & Herror).
  specialize (Herror (Error "ENOTFOUND")).
  vm_compute in Hk. injection Hk as <-.
  vm_compute in Hopen, Hrun, Herror. vm_compute.
  split; [reflexivity|]. split; [exact Hopen|]. split; [exact Hrun | exact Herror].
Defined.

(** C9, as stated, fails in the standalone server.  A text that is no
    JSON and no start command, arriving in a [Buffer] while the client
    holds an open upstream, is not logged and not dropped: it is sent
    upstream as an append message. *)
Lemma C9_malformed_buffer_forwarded_upstream :
  let s := started Server in
  let s' := example_step Server s (E_message (Buf "not json")) in
  is_start_command Parser.parse "not json" = false /\
  Parser.parse "not json" = None /\
  console s' = console s /\
  sent <$> sockets s' = [[session_config; audioEvent "not json"]].
Proof. vm_compute. repeat split; reflexivity. Qed.

Lemma C9_other_payloads_dropped_witness :
  only_logged (started Route)
    (example_step Route (started Route) (E_message (Str "hello"))) /\
  only_logged (started Server)
    (example_step Server (started Server) (E_message (Str (json_text "{'action':'stop'}")))) /\
  only_logged (started Server)
    (example_step Server (started Server) (E_message (Buf "1234"))) /\
  forwarded "not json" (started Server)
    (example_step Server (started Server) (E_message (Buf "not json"))) /\
  example_step Server (onConnect example_request) (E_message (Buf "not json"))
    = onConnect example_request.
Proof.
  split; [|split; [|split; [|split]]].
  - destruct (C9_other_payloads_dropped Parser.parse None Route (Str "hello")
                (started Route) eq_refl) as [Hdropped _].
    apply Hdropped. left. by exists "hello".
  - destruct (C9_other_payloads_dropped Parser.parse None Server
                (Str (json_text "{'action':'stop'}")) (started Server) eq_refl)
      as [Hdropped _].
    apply Hdropped. left. by eexists.
  - destruct (C9_other_payloads_dropped Parser.parse None Server (Buf "1234")
                (started Server) eq_refl) as [Hdropped _].
    apply Hdropped. right. split; [reflexivity|].
    exists (JNum 1234 0). split; [reflexivity | discriminate].
  - destruct (C9_other_payloads_dropped Parser.parse None Server (Buf "not json")
                (started Server) eq_refl) as (_ & Haudio & _).
    destruct (Haudio "not json" eq_refl eq_refl eq_refl) as (_ & Hopen & _).
    exact (Hopen eq_refl).
  - destruct (C9_other_payloads_dropped Parser.parse None Server (Buf "not json")
                (onConnect example_request) eq_refl) as (_ & Haudio & _).
    destruct (Haudio "not json" eq_refl eq_refl eq_refl) as (_ & _ & Hidle).
    exact (Hidle eq_refl).
Defined.


(* ===================================================================== *)
(** * Further properties of the bridge *)
(* ===================================================================== *)

(** ** What the bridge sends to the client *)

(** The payloads the handlers pass to [client.send] after the greeting:
    an upstream message passed on as it came, one of the four error
    events, or one of the two transcript events. *)
Inductive gateway_event : ClientPayload -> Prop :=
| ge_text (data : string) : gateway_event (Text data)
| ge_already_started : gateway_event (Json upstream_already_started)
| ge_setup_failed (detail : string) : gateway_event (Json (upstream_setup_failed detail))
| ge_connection_failed (detail : string) :
    gateway_event (Json (openai_connection_failed detail))
| ge_openai_error (detail : option json) : gateway_event (Json (openai_error detail))
| ge_partial (text item_id : option json) : gateway_event (Json (partial text item_id))
| ge_final (text item_id : option json) : gateway_event (Json (final text item_id)).

(** The same with the acknowledgment the bridge's ['open'] listener
    would send. *)
Definition bridge_payload (p : ClientPayload) : Prop :=
  gateway_event p \/ p = Json ready.

Definition is_await_mint (t : Task) : bool :=
  match t with
  | AwaitMint => true
  | _ => false
  end.

(** The changes of [readyState] that the transport makes when it emits
    an event: a socket never goes back to connecting, and is open only
    after connecting or being open. *)
Definition moves (from to : ReadyState) : Prop :=
  to <> CONNECTING /\ (to = OPEN -> from = CONNECTING \/ from = OPEN).

(** A relation between the session before and after a piece of a
    handler that holds across the primitive operations the handlers
    are made of: a line logged, a payload sent to the client, a change
    of the client that leaves its outbox alone, a change of one socket
    that keeps its token, its state and its count of [close()], a move
    of a socket's state by the transport, the move of a run that has its
    token to a later stage, a change of the microtask queue. *)
Class Observation (R : Session -> Session -> Prop) : Prop := {
  obs_refl : forall s, R s s;
  obs_trans : forall s1 s2 s3, R s1 s2 -> R s2 s3 -> R s1 s3;
  obs_log : forall l s, R s (log l s);
  obs_send : forall p s, bridge_payload p -> R s (client_send p s);
  obs_client : forall f s,
    (forall c, client_sent (f c) = client_sent c) -> R s (with_client f s);
  obs_socket : forall f u s,
    (forall k, token (f k) = token k /\ closes (f k) = closes k /\
               readyState (f k) = readyState k) ->
    R s (with_sockets (alter f u) s);
  obs_ready : forall r u k s,
    sockets s !! u = Some k -> moves (readyState k) r ->
    R s (with_sockets (alter (set_readyState r) u) s);
  obs_task : forall t old new s,
    tasks s !! t = Some old -> is_await_mint old = false -> is_await_mint new = false ->
    R s (with_tasks (<[t := new]>) s);
  obs_queue : forall f s, R s (with_microtasks f s)
}.

(** The client's outbox only grows, by payloads of the bridge. *)
Definition outbox_grows (s s' : Session) : Prop :=
  exists new, client_sent (client s') = client_sent (client s) ++ new /\
              Forall bridge_payload new.

(** Every socket is still there, with its token, and [close()] was
    called on none. *)
Definition never_closes (s s' : Session) : Prop :=
  forall u k, sockets s !! u = Some k ->
    exists k', sockets s' !! u = Some k' /\ token k' = token k /\ closes k' = closes k.

(** The events of the client's own end: its ['close'] and its
    ['error']. *)
Definition is_client_end (e : Event) : bool :=
  match e with
  | E_close _ | E_error _ => true
  | _ => false
  end.

(** One request per run, and at most one socket per run that has its
    token. *)
Definition accounted (s : Session) : Prop :=
  length (requests s) = length (tasks s) /\
  length (sockets s) + count is_await_mint (tasks s) <= length (tasks s).

(** [close()] has been called on no socket more than once, and a
    socket on which it has been called is closing or closed. *)
Definition closed_once (s : Session) : Prop :=
  forall u k, sockets s !! u = Some k ->
    closes k <= 1 /\ (closes k = 1 -> readyState k = CLOSING \/ readyState k = CLOSED).

(** What holds before still holds after. *)
Definition preserves (P : Session -> Prop) (s s' : Session) : Prop := P s -> P s'.

(* ===================================================================== *)
(** ** The observations *)
(* ===================================================================== *)

Lemma outbox_same (s s' : Session) :
  client_sent (client s') = client_sent (client s) -> outbox_grows s s'.
Proof. intros H. exists []. by rewrite app_nil_r. Qed.

#[global] Instance outbox_grows_observation : Observation outbox_grows.
Proof.
  split; try (intros; by apply outbox_same).
  - intros s1 s2 s3 (n1 & H1 & F1) (n2 & H2 & F2). exists (n1 ++ n2).
    rewrite H2, H1, <- app_assoc. split; [done | by apply Forall_app].
  - intros p s Hp. exists [p]. split; [done | by constructor].
  - intros f s Hf. apply outbox_same. simpl. apply Hf.
Qed.

#[global] Instance accounted_observation : Observation (preserves accounted).
Proof.
  split; try (intros; by intros ?).
  - intros s1 s2 s3 H1 H2 H. auto.
  - intros f u s _ (? & ?). repeat split; simpl; try done. by rewrite length_alter.
  - intros r u k s _ _ (? & ?). repeat split; simpl; try done. by rewrite length_alter.
  - intros t old new s Hold Ho Hn (? & ?). repeat split; simpl; try done.
    + by rewrite length_insert.
    + pose proof (count_insert is_await_mint _ _ _ new Hold) as Hc.
      rewrite Ho, Hn in Hc. rewrite length_insert. lia.
Qed.

#[global] Instance closed_once_observation : Observation (preserves closed_once).
Proof.
  assert (Hsame : forall s s', sockets s' = sockets s -> preserves closed_once s s').
  { intros s s' H Hs u k. rewrite H. apply Hs. }
  split; try (intros; by apply Hsame).
  - intros s1 s2 s3 H1 H2 H. auto.
  - intros f u s Hf Hs u' k'. simpl.
    destruct (decide (u = u')) as [->|Hne].
    + rewrite list_lookup_alter_eq. destruct (sockets s !! u') as [k|] eqn:Hk; [|done].
      intros [= <-]. destruct (Hf k) as (_ & -> & ->). by apply (Hs u').
    + rewrite list_lookup_alter_ne by done. apply Hs.
  - intros r u k s Hk [Hr Hopen] Hs u' k'. simpl.
    destruct (decide (u = u')) as [->|Hne].
    + rewrite list_lookup_alter_eq, Hk. intros [= <-]. simpl.
      destruct (Hs _ _ Hk) as [Hle Hone]. split; [done|]. intros Hc.
      destruct (Hone Hc) as [Hrs|Hrs]; rewrite Hrs in Hopen;
        destruct r; try done; auto; by destruct Hopen.
    + rewrite list_lookup_alter_ne by done. apply Hs.
Qed.

#[global] Instance never_closes_observation : Observation never_closes.
Proof.
  assert (Hsame : forall s s', sockets s' = sockets s -> never_closes s s').
  { intros s s' H u k Hk. exists k. by rewrite H. }
  split; try (intros; by apply Hsame).
  - intros s1 s2 s3 H1 H2 u k Hk.
    destruct (H1 _ _ Hk) as (k2 & Hk2 & Ht2 & Hc2).
    destruct (H2 _ _ Hk2) as (k3 & Hk3 & Ht3 & Hc3).
    exists k3. repeat split; congruence.
  - intros f u s Hf u' k Hk. simpl.
    destruct (decide (u = u')) as [->|Hne].
    + exists (f k). rewrite list_lookup_alter_eq, Hk. simpl.
      destruct (Hf k) as (? & ? & ?). done.
    + exists k. by rewrite list_lookup_alter_ne.
  - intros r u k0 s _ _ u' k Hk. simpl.
    destruct (decide (u = u')) as [->|Hne].
    + exists (set_readyState r k). by rewrite list_lookup_alter_eq, Hk.
    + exists k. by rewrite list_lookup_alter_ne.
Qed.

Unset Default Proof Using.

Section Observed.

Context (R : Session -> Session -> Prop) `{!Observation R}.
Variable JSON_parse : string -> option json.
Variable MODEL_NAME : option string.
Variable deployment : Deployment.

Lemma obs_fold {B} (f : Session -> B -> Session) (l : list B) (s : Session) :
  (forall s b, R s (f s b)) -> R s (fold_left f l s).
Proof.
  intros Hf. revert s. induction l as [|b l IH]; intros s; simpl.
  - apply obs_refl.
  - eapply obs_trans; [apply Hf | apply IH].
Qed.

Lemma obs_gateway_send (p : ClientPayload) (s : Session) :
  gateway_event p -> R s (client_send p s).
Proof. intros Hp. apply obs_send. by left. Qed.

Lemma obs_socket_send (u : nat) (v : json) (s : Session) : R s (socket_send u v s).
Proof. by apply obs_socket. Qed.

Lemma obs_onUpstreamMessage (data : string) (s : Session) :
  R s (onUpstreamMessage JSON_parse data s).
Proof.
  unfold onUpstreamMessage.
  assert (Hcaught : forall s',
    R s' (client_send (Text data)
            (log (L_NonJSONFromOpenAI (clientIp s) (substring 0 100 data)) s'))).
  { intros s'. eapply obs_trans; [apply obs_log|]. apply obs_gateway_send. constructor. }
  destruct (JSON_parse data) as [m|]; [|apply Hcaught].
  destruct (JS.member (Some m) "type") as [type|]; [|apply Hcaught].
  repeat case_match;
    repeat (first [ apply obs_log
                  | apply obs_gateway_send; constructor
                  | eapply obs_trans; [apply obs_log|] ]).
Qed.

Lemma obs_onUpstreamClose (code : Z) (s : Session) : R s (onUpstreamClose code s).
Proof.
  unfold onUpstreamClose.
  eapply obs_trans; [|by apply obs_client].
  case_bool_decide.
  - eapply obs_trans; [apply obs_log|]. by apply obs_client.
  - apply obs_log.
Qed.

Lemma obs_onUpstreamError (err : JsError) (s : Session) : R s (onUpstreamError err s).
Proof.
  unfold onUpstreamError.
  eapply obs_trans; [|by apply obs_client].
  case_bool_decide.
  - eapply obs_trans; [apply obs_log|].
    eapply obs_trans;
      [apply (obs_gateway_send (Json (openai_connection_failed (message err))));
       constructor|].
    by apply obs_client.
  - apply obs_log.
Qed.

Lemma obs_resolve (t u : nat) (s : Session) : R s (resolve t u s).
Proof.
  unfold resolve. destruct (tasks s !! t) as [[]|] eqn:Ht; try apply obs_refl.
  apply (obs_trans _ (with_tasks (<[t := Resolved u]>) s)); [|apply obs_queue].
  by eapply obs_task.
Qed.

Lemma obs_reject (t : nat) (err : JsError) (s : Session) : R s (reject t err s).
Proof.
  unfold reject. destruct (tasks s !! t) as [[]|] eqn:Ht; try apply obs_refl.
  apply (obs_trans _ (with_tasks (<[t := Rejected err]>) s)); [|apply obs_queue].
  by eapply obs_task.
Qed.

Lemma obs_call (u : nat) (ev : UpstreamEvent) (s : Session) (f : Listener) :
  R s (call JSON_parse u ev s f).
Proof.
  destruct f, ev; simpl; try apply obs_refl.
  - eapply obs_trans; [|apply obs_resolve].
    eapply obs_trans; [|apply obs_log].
    eapply obs_trans; [apply obs_log | apply obs_socket_send].
  - eapply obs_trans; [apply obs_log | apply obs_reject].
  - apply obs_log.
  - eapply obs_trans; [apply obs_log|]. apply obs_send. by right.
  - apply obs_onUpstreamMessage.
  - apply obs_onUpstreamClose.
  - apply obs_onUpstreamError.
Qed.

Lemma obs_setupCatch (t : nat) (err : JsError) (old : Task) (s : Session) :
  tasks s !! t = Some old -> is_await_mint old = false -> R s (setupCatch t err s).
Proof.
  intros Ht Hold. unfold setupCatch.
  eapply obs_trans; [|eapply (obs_task t old); [exact Ht | done | done]].
  eapply obs_trans; [|apply obs_gateway_send; constructor].
  apply obs_log.
Qed.

Lemma obs_afterOpen (t u : nat) (old : Task) (s : Session) :
  tasks s !! t = Some old -> is_await_mint old = false -> R s (afterOpen t u s).
Proof.
  intros Ht Hold. unfold afterOpen.
  eapply obs_trans; [|eapply (obs_task t old); [exact Ht | done | done]].
  eapply obs_trans; [|by apply obs_socket].
  eapply obs_trans; [|apply obs_log].
  by apply obs_client.
Qed.

Lemma obs_runMicrotask (s : Session) (t : nat) : R s (runMicrotask s t).
Proof.
  unfold runMicrotask. destruct (tasks s !! t) as [[]|] eqn:Ht; try apply obs_refl.
  - by eapply obs_afterOpen.
  - by eapply obs_setupCatch.
Qed.

Lemma obs_drain (s : Session) : R s (drain s).
Proof.
  unfold drain. eapply obs_trans; [apply obs_queue|].
  apply obs_fold, obs_runMicrotask.
Qed.

Lemma obs_emit (u : nat) (ev : UpstreamEvent) (s : Session) : R s (emit JSON_parse u ev s).
Proof.
  unfold emit. case_match; [|apply obs_refl].
  apply obs_fold. intros. apply obs_call.
Qed.

Lemma obs_onUpstream (u : nat) (ev : UpstreamEvent) (s : Session) :
  R s (onUpstream JSON_parse u ev s).
Proof.
  unfold onUpstream. destruct (sockets s !! u) as [k|] eqn:Hk; [|apply obs_refl].
  assert (Hfire : forall r, moves (readyState k) r ->
    R s (drain (emit JSON_parse u ev (with_sockets (alter (set_readyState r) u) s)))).
  { intros r Hr. eapply obs_trans; [|apply obs_drain].
    eapply obs_trans; [|apply obs_emit]. by eapply obs_ready. }
  destruct ev, (readyState k) eqn:Hrs; try apply obs_refl;
    apply Hfire; split; (done || auto).
Qed.

Lemma obs_forwardAudio (bytes : string) (s : Session) : R s (forwardAudio bytes s).
Proof.
  unfold forwardAudio. repeat case_match; first [apply obs_refl | apply obs_socket_send].
Qed.

Lemma obs_onPong (s : Session) : R s (onPong s).
Proof. by apply obs_client. Qed.

Lemma obs_heartbeat (s : Session) : R s (heartbeat s).
Proof.
  unfold heartbeat, sweep. repeat case_match; try apply obs_refl.
  - eapply obs_trans; [by apply (obs_client (set_isAlive false))|].
    unfold client_ping. by apply obs_client.
  - eapply obs_trans; [apply obs_log|]. unfold client_terminate. by apply obs_client.
Qed.

(** The ['message'] listener, given what the observation makes of the
    request for a token. *)
Lemma obs_onMessage (m : Message) (s : Session) :
  (forall model s, R s (mintEphemeralToken model s)) ->
  R s (onMessage JSON_parse MODEL_NAME deployment m s).
Proof.
  intros Hmint.
  assert (Hcmd : forall msg s, R s (onCommand MODEL_NAME msg s).1).
  { intros msg s0. unfold onCommand.
    destruct (JS.member (Some msg) "action") as [action|]; simpl; [|apply obs_log].
    destruct (JS.is_string action "start"); simpl; [|apply obs_log].
    destruct (upstream_open _); simpl.
    - eapply obs_trans; [apply obs_log|].
      eapply obs_trans; [apply obs_log|].
      apply obs_gateway_send. constructor.
    - eapply obs_trans; [apply obs_log|].
      eapply obs_trans; [apply obs_log|].
      eapply obs_trans; [apply obs_log|]. apply Hmint. }
  unfold onMessage, route_onMessage, server_onMessage.
  destruct deployment, m as [text|bytes]; simpl;
    repeat match goal with
    | |- context [JSON_parse ?x] => destruct (JSON_parse x) as [msg|]
    | |- context [onCommand MODEL_NAME ?msg s] =>
        specialize (Hcmd msg s); destruct (onCommand MODEL_NAME msg s) as [s' []]; simpl in Hcmd
    end;
    try done;
    try (eapply obs_trans; [exact Hcmd|]);
    first [ apply obs_forwardAudio | apply obs_log ].
Qed.

(** The run after the token request, given what the observation makes
    of the new socket and of the failure of the request. *)
Lemma obs_onFetch (t : nat) (r : FetchResult) (s : Session) :
  (forall tok s, tasks s !! t = Some AwaitMint -> R s (openOpenAIRealtime t tok s)) ->
  (forall err s, tasks s !! t = Some AwaitMint -> R s (setupCatch t err s)) ->
  R s (onFetch t r s).
Proof.
  intros Hopen Hcatch.
  unfold onFetch. destruct (tasks s !! t) as [[]|] eqn:Ht; try apply obs_refl.
  destruct (mintEphemeralToken_resume r) as [logged [tok|err]].
  - set (s1 := fold_left _ logged s).
    assert (R s s1 /\ tasks s1 = tasks s) as [H1 Ht1].
    { split; [apply obs_fold; intros; apply obs_log|].
      subst s1. apply (fold_left_preserves (fun s' => tasks s' = tasks s)); done. }
    eapply obs_trans; [exact H1|].
    eapply obs_trans; [apply obs_log|].
    eapply obs_trans; [apply obs_log|].
    apply Hopen. simpl. by rewrite Ht1.
  - set (s1 := fold_left _ logged s).
    assert (R s s1 /\ tasks s1 = tasks s) as [H1 Ht1].
    { split; [apply obs_fold; intros; apply obs_log|].
      subst s1. apply (fold_left_preserves (fun s' => tasks s' = tasks s)); done. }
    eapply obs_trans; [exact H1|].
    apply Hcatch. by rewrite Ht1.
Qed.

(** The client's ['close'] and ['error'] listeners, given what the
    observation makes of the closing of the upstream. *)
Lemma obs_onClose (code : Z) (s : Session) :
  (forall s, R s (closeUpstream s)) -> R s (onClose code s).
Proof.
  intros Hclose. unfold onClose.
  eapply obs_trans; [|apply Hclose].
  eapply obs_trans; [|apply obs_log]. by apply obs_client.
Qed.

Lemma obs_onError (err : JsError) (s : Session) :
  (forall s, R s (closeUpstream s)) -> R s (onError err s).
Proof.
  intros Hclose. unfold onError.
  eapply obs_trans; [|apply Hclose].
  eapply obs_trans; [|apply obs_log]. by apply obs_client.
Qed.

(** Every event but the two of the client's own end. *)
Lemma obs_step (s : Session) (e : Event) :
  (forall model s, R s (mintEphemeralToken model s)) ->
  (forall t tok s, tasks s !! t = Some AwaitMint -> R s (openOpenAIRealtime t tok s)) ->
  (forall t err s, tasks s !! t = Some AwaitMint -> R s (setupCatch t err s)) ->
  is_client_end e = false ->
  R s (step JSON_parse MODEL_NAME deployment s e).
Proof.
  intros Hmint Hopen Hcatch. destruct e; simpl; try done; intros _.
  - by apply obs_onMessage.
  - apply obs_onPong.
  - apply obs_onFetch; auto.
  - apply obs_onUpstream.
  - apply obs_heartbeat.
Qed.

End Observed.

Section Further.

Variable JSON_parse : string -> option json.
Variable MODEL_NAME : option string.
Variable deployment : Deployment.

Lemma client_closeUpstream (s : Session) : client (closeUpstream s) = client s.
Proof. unfold closeUpstream. by repeat case_match. Qed.

Lemma tasks_closeUpstream (s : Session) : tasks (closeUpstream s) = tasks s.
Proof. unfold closeUpstream. by repeat case_match. Qed.

Lemma sockets_closeUpstream_ne (s : Session) (u : nat) :
  upstream (client s) <> Some u -> sockets (closeUpstream s) !! u = sockets s !! u.
Proof.
  intros Hu. unfold closeUpstream. repeat case_match; try done.
  simpl. apply list_lookup_alter_ne. congruence.
Qed.

(** *** The outbox *)

Lemma outbox_mintEphemeralToken (model : option json) (s : Session) :
  outbox_grows s (mintEphemeralToken model s).
Proof. by apply outbox_same. Qed.

Lemma outbox_openOpenAIRealtime (t : nat) (tok : option json) (s : Session) :
  outbox_grows s (openOpenAIRealtime t tok s).
Proof. by apply outbox_same. Qed.

Lemma outbox_setupCatch (t : nat) (err : JsError) (s : Session) :
  outbox_grows s (setupCatch t err s).
Proof.
  exists [Json (upstream_setup_failed (message err))].
  split; [done|]. constructor; [|done]. left. constructor.
Qed.

Lemma outbox_step (s : Session) (e : Event) :
  outbox_grows s (step JSON_parse MODEL_NAME deployment s e).
Proof.
  destruct (is_client_end e) eqn:He.
  - apply outbox_same. destruct e; try done; simpl.
    + unfold onClose. by rewrite client_closeUpstream.
    + unfold onError. by rewrite client_closeUpstream.
  - apply obs_step; [apply _| | | |done].
    + apply outbox_mintEphemeralToken.
    + intros. apply outbox_openOpenAIRealtime.
    + intros. apply outbox_setupCatch.
Qed.

Lemma outbox_run (s : Session) (trace : list Event) :
  outbox_grows s (run JSON_parse MODEL_NAME deployment s trace).
Proof.
  revert s. induction trace as [|e trace IH]; intros s; simpl; [apply obs_refl|].
  eapply obs_trans; [apply outbox_step | apply IH].
Qed.

(** X1. In every state a session reaches, the first payload the client
    was sent is the greeting [{type: "connected", ...}], and every
    payload after it is an upstream message passed on as it came, one of
    the four error events ([upstream_already_started],
    [upstream_setup_failed], [openai_connection_failed], [openai_error])
    or a [partial] or [final] transcript event. *)
Theorem X1_greeting_then_gateway_events (req : Request) (trace : list Event) :
  exists rest,
    client_sent (client (reached JSON_parse MODEL_NAME deployment req trace))
      = Json connected :: rest /\
    Forall gateway_event rest.
Proof.
  destruct (outbox_run (onConnect req) trace) as (new & Hnew & Hall).
  pose proof (inv_ready _ (invariant_reachable JSON_parse MODEL_NAME deployment req trace))
    as Hready.
  unfold reached. rewrite Hnew in Hready |- *.
  exists new. split; [done|].
  apply Forall_forall. intros p Hp.
  destruct (proj1 (Forall_forall _ _) Hall p Hp) as [Hge| ->]; [done|].
  destruct Hready. by right.
Qed.

(** *** Requests, runs and sockets *)

Lemma accounted_mintEphemeralToken (model : option json) (s : Session) :
  preserves accounted s (mintEphemeralToken model s).
Proof.
  intros (Hr & Hk). repeat split; simpl.
  - rewrite !length_app. simpl. lia.
  - rewrite count_app, length_app. simpl. lia.
Qed.

Lemma accounted_openOpenAIRealtime (t : nat) (tok : option json) (s : Session) :
  tasks s !! t = Some AwaitMint -> preserves accounted s (openOpenAIRealtime t tok s).
Proof.
  intros Ht (Hr & Hk). repeat split; simpl; try done.
  - by rewrite length_insert.
  - pose proof (count_insert is_await_mint _ _ _ (AwaitOpen (length (sockets s))) Ht) as Hc.
    simpl in Hc. rewrite length_app, length_insert. simpl. lia.
Qed.

Lemma accounted_setupCatch (t : nat) (err : JsError) (s : Session) :
  tasks s !! t = Some AwaitMint -> preserves accounted s (setupCatch t err s).
Proof.
  intros Ht (Hr & Hk). repeat split; simpl; try done.
  - by rewrite length_insert.
  - pose proof (count_insert is_await_mint _ _ _ Failed Ht) as Hc.
    simpl in Hc. rewrite length_insert. lia.
Qed.

Lemma accounted_closeUpstream (s : Session) : preserves accounted s (closeUpstream s).
Proof.
  unfold closeUpstream. repeat case_match; try by intros ?.
  intros (Hr & Hk). repeat split; simpl; try done. by rewrite length_alter.
Qed.

Lemma accounted_step (s : Session) (e : Event) :
  accounted s -> accounted (step JSON_parse MODEL_NAME deployment s e).
Proof.
  destruct (is_client_end e) eqn:He.
  - destruct e; try done; simpl.
    + apply (obs_onClose (preserves accounted)), accounted_closeUpstream.
    + apply (obs_onError (preserves accounted)), accounted_closeUpstream.
  - apply (obs_step (preserves accounted)); try done.
    + apply accounted_mintEphemeralToken.
    + intros t tok s0. apply accounted_openOpenAIRealtime.
    + intros t err s0. apply accounted_setupCatch.
Qed.

(** X2. In every state a session reaches there is exactly one token
    request per run of the start branch, and the upstream sockets are at
    most as many as the runs whose token request has been answered: no
    socket is opened without a token request of its own. *)
Theorem X2_one_request_per_run (req : Request) (trace : list Event) :
  let s := reached JSON_parse MODEL_NAME deployment req trace in
  length (requests s) = length (tasks s) /\
  length (sockets s) + count is_await_mint (tasks s) <= length (tasks s).
Proof.
  cbv zeta. unfold reached, run.
  apply (fold_left_preserves accounted).
  - by repeat split.
  - intros s e. apply accounted_step.
Qed.

(** *** Who closes an upstream *)

Lemma never_closes_step (s : Session) (e : Event) :
  is_client_end e = false ->
  never_closes s (step JSON_parse MODEL_NAME deployment s e).
Proof.
  apply obs_step; [apply _| | |].
  - intros model s0 u k Hk. by exists k.
  - intros t tok s0 _ u k Hk. exists k. split; [|done].
    simpl. by apply lookup_app_l_Some.
  - intros t err s0 _ u k Hk. by exists k.
Qed.

Lemma never_closes_run (s : Session) (trace : list Event) :
  Forall (fun e => is_client_end e = false) trace ->
  never_closes s (run JSON_parse MODEL_NAME deployment s trace).
Proof.
  intros Htrace. revert s. induction Htrace as [|e trace He _ IH]; intros s; simpl.
  - apply obs_refl.
  - eapply obs_trans; [by apply never_closes_step | apply IH].
Qed.

(** What [closeUpstream] does to the socket [u]. *)
Lemma closeUpstream_socket (s : Session) (u : nat) (k : Socket) :
  sockets s !! u = Some k ->
  sockets (closeUpstream s) !! u =
    Some (if bool_decide (upstream (client s) = Some u /\ readyState k = OPEN)
          then shut k else k).
Proof.
  intros Hk. unfold closeUpstream, upstream_open.
  destruct (upstream (client s)) as [u'|] eqn:Hu.
  - destruct (decide (u' = u)) as [->|Hne].
    + rewrite Hk. case_bool_decide as Hopen.
      * rewrite bool_decide_eq_true_2 by done.
        simpl. by rewrite list_lookup_alter_eq, Hk.
      * rewrite bool_decide_eq_false_2 by (by intros [_ ?]). done.
    + rewrite bool_decide_eq_false_2 by (intros [? _]; congruence).
      repeat case_match; try done. simpl. by rewrite list_lookup_alter_ne.
  - by rewrite bool_decide_eq_false_2 by (by intros [? _]).
Qed.

(** X3. Who closes an upstream.  The bridge calls [close()] on an
    upstream socket nowhere but in the client's ['close'] and ['error']
    listeners: over any run of other events, from any state, every
    socket is still there with the token it was made with and the same
    count of [close()] calls.  The two listeners call it once, on the
    socket the client holds when that socket is open, and on no other
    socket. *)
Theorem X3_upstream_closed_by_client_end_only (s : Session) :
  (forall trace,
     Forall (fun e => is_client_end e = false) trace ->
     never_closes s (run JSON_parse MODEL_NAME deployment s trace)) /\
  (forall e u k,
     is_client_end e = true ->
     sockets s !! u = Some k ->
     sockets (step JSON_parse MODEL_NAME deployment s e) !! u =
       Some (if bool_decide (upstream (client s) = Some u /\ readyState k = OPEN)
             then shut k else k)).
Proof.
  split; [apply never_closes_run|].
  intros e u k He Hk. destruct e; try done; simpl.
  - unfold onClose. by rewrite (closeUpstream_socket _ u k).
  - unfold onError. by rewrite (closeUpstream_socket _ u k).
Qed.

Lemma closeUpstream_lookup (s : Session) (u : nat) :
  sockets (closeUpstream s) !! u =
    (fun k => if bool_decide (upstream (client s) = Some u /\ readyState k = OPEN)
              then shut k else k) <$> sockets s !! u.
Proof.
  destruct (sockets s !! u) as [k|] eqn:Hk; [by apply closeUpstream_socket|].
  unfold closeUpstream. repeat case_match; try done. simpl.
  destruct (decide (n = u)) as [->|Hne].
  - by rewrite list_lookup_alter_eq, Hk.
  - by rewrite list_lookup_alter_ne.
Qed.

Lemma closed_once_closeUpstream (s : Session) :
  preserves closed_once s (closeUpstream s).
Proof.
  intros Hs u k'. rewrite closeUpstream_lookup.
  destruct (sockets s !! u) as [k|] eqn:Hk; [|done]. simpl. intros [= <-].
  destruct (Hs _ _ Hk) as [Hle Hone].
  case_bool_decide as Hheld; [|done].
  destruct Hheld as [_ Hopen]. simpl. split; [|auto].
  assert (closes k <> 1); [|lia].
  intros Hc. destruct (Hone Hc); congruence.
Qed.

Lemma closed_once_step (s : Session) (e : Event) :
  closed_once s -> closed_once (step JSON_parse MODEL_NAME deployment s e).
Proof.
  destruct (is_client_end e) eqn:He.
  - destruct e; try done; simpl.
    + apply (obs_onClose (preserves closed_once)), closed_once_closeUpstream.
    + apply (obs_onError (preserves closed_once)), closed_once_closeUpstream.
  - apply (obs_step (preserves closed_once)); try done.
    + intros model s0 Hs u k. apply Hs.
    + intros t tok s0 _ Hs u k. simpl.
      intros [Hk|[_ Hk]]%lookup_app_Some; [by apply (Hs u)|].
      apply list_lookup_singleton_Some in Hk as [_ <-]. simpl. split; [lia | done].
    + intros t err s0 _ Hs u k. apply Hs.
Qed.

(** X4. [close()] is called at most once on any upstream socket.  In
    every state a session reaches, every socket has had [close()] called
    on it once or never, and one on which it has been called is closing
    or closed: the client's ['error'] and ['close'] events, which follow
    one another, do not both close the upstream the client held. *)
Theorem X4_upstream_closed_at_most_once (req : Request) (trace : list Event)
    (u : nat) (k : Socket) :
  sockets (reached JSON_parse MODEL_NAME deployment req trace) !! u = Some k ->
  closes k <= 1 /\ (closes k = 1 -> readyState k = CLOSING \/ readyState k = CLOSED).
Proof.
  revert u k. change (closed_once (reached JSON_parse MODEL_NAME deployment req trace)).
  unfold reached, run. apply (fold_left_preserves closed_once).
  - intros u k Hk. done.
  - intros s e. apply closed_once_step.
Qed.

Lemma onClose_client (code : Z) (s : Session) :
  client (onClose code s) = set_client_readyState CLOSED (client s).
Proof. unfold onClose. by rewrite client_closeUpstream. Qed.

(** X5. A client that goes away while a run waits for its upstream to
    open leaves that upstream behind.  In every state a session reaches,
    with a run suspended on the promise of socket [u]: when the client's
    ['close'] event comes first and the socket opens afterwards, the run
    goes on as if nothing had happened, so that the closed client holds
    an open, configured upstream; and whatever follows, short of another
    event of the client's end, [close()] is never called on that
    upstream. *)
Theorem X5_upstream_left_open_by_early_close (req : Request) (trace : list Event)
    (t u : nat) (code : Z) (later : list Event) :
  let s := reached JSON_parse MODEL_NAME deployment req trace in
  let next := step JSON_parse MODEL_NAME deployment in
  let s2 := next (next s (E_close code)) (E_upstream u U_open) in
  tasks s !! t = Some (AwaitOpen u) ->
  Forall (fun e => is_client_end e = false) later ->
  client_readyState (client s2) = CLOSED /\
  upstream (client s2) = Some u /\
  upstream_open s2 = true /\
  exists k k2 k',
    sockets s !! u = Some k /\
    sockets s2 !! u = Some k2 /\ sent k2 = [session_config] /\
    sockets (run JSON_parse MODEL_NAME deployment s2 later) !! u = Some k' /\
    closes k' = closes k.
Proof.
  intros s next s2 Ht Hlater.
  pose proof (invariant_reachable JSON_parse MODEL_NAME deployment req trace) as Hinv.
  change (invariant s) in Hinv.
  destruct (awaited_socket s t u Hinv Ht) as (k & Hk & Hl & Hrs & Hsent & Hheld).
  set (s1 := next s (E_close code)) in *.
  assert (Hinv1 : invariant s1) by (by apply invariant_step).
  assert (Hk1 : sockets s1 !! u = Some k).
  { subst s1 next. simpl. unfold onClose. by rewrite sockets_closeUpstream_ne. }
  assert (Ht1 : tasks s1 !! t = Some (AwaitOpen u)).
  { subst s1 next. simpl. unfold onClose. by rewrite tasks_closeUpstream. }
  assert (Hs2 : s2 = onUpstream JSON_parse u U_open s1) by done.
  rewrite (onUpstream_open_pending JSON_parse s1 u k t) in Hs2
    by (try done; by apply inv_queue).
  pose proof (lookup_lt_Some _ _ _ Hk1) as Hlt.
  assert (Hk2 : sockets s2 !! u =
                Some (mkSocket OPEN (token k) (sent k ++ [session_config])
                        (connector_listeners t ++ bridge_listeners) (closes k))).
  { rewrite Hs2. simpl. by apply list_lookup_insert_eq. }
  split; [|split; [|split]].
  - rewrite Hs2. simpl. subst s1 next. simpl. by rewrite onClose_client.
  - by rewrite Hs2.
  - unfold upstream_open.
    replace (upstream (client s2)) with (Some u) by (by rewrite Hs2).
    by rewrite Hk2.
  - destruct (never_closes_run s2 later Hlater u _ Hk2) as (k' & Hk' & _ & Hc).
    eexists k, _, k'. split; [done|]. split; [exact Hk2|].
    split; [by rewrite Hsent|]. done.
Qed.

(** X6. An upstream that is no longer the one the client holds still
    takes the client down.  In every state a session reaches, for the
    socket [u] of any run that got its upstream, held by the client or
    not: when [u] closes, the client's reference is cleared, whatever it
    named, and the client connection, if open, is closed; when [u]
    errors, the client is sent [openai_connection_failed] first.  No
    other socket is touched, so an upstream the client held instead
    stays as it was, open and no longer referred to. *)
Theorem X6_any_established_upstream_ends_the_session (req : Request) (trace : list Event)
    (t u : nat) (k : Socket) :
  let s := reached JSON_parse MODEL_NAME deployment req trace in
  let next := step JSON_parse MODEL_NAME deployment s in
  tasks s !! t = Some (Established u) ->
  sockets s !! u = Some k ->
  readyState k = OPEN \/ readyState k = CLOSING ->
  (forall code reason,
     client (next (E_upstream u (U_close code reason))) =
       set_upstream None
         (if bool_decide (client_readyState (client s) = OPEN)
          then hangup (client s) else client s) /\
     sockets (next (E_upstream u (U_close code reason))) =
       <[u := set_readyState CLOSED k]> (sockets s)) /\
  (forall err,
     client (next (E_upstream u (U_error err))) =
       set_upstream None
         (if bool_decide (client_readyState (client s) = OPEN)
          then hangup (push (Json (openai_connection_failed (message err))) (client s))
          else client s) /\
     sockets (next (E_upstream u (U_error err))) =
       <[u := set_readyState CLOSING k]> (sockets s)).
Proof.
  intros s next Ht Hk Hrs.
  pose proof (invariant_reachable JSON_parse MODEL_NAME deployment req trace) as Hinv.
  change (invariant s) in Hinv.
  destruct (inv_established _ Hinv _ _ Ht) as (k0 & Hk0 & Hl).
  rewrite Hk in Hk0. injection Hk0 as <-.
  pose proof (inv_queue _ Hinv) as Hq.
  split.
  - intros code reason. subst next. cbn [step].
    rewrite (onUpstream_close_live JSON_parse s u k t) by done.
    unfold onUpstreamClose. cbn [client sockets log with_sockets with_client].
    split; [by case_bool_decide|].
    rewrite <- (alter_lookup (set_readyState CLOSED) _ _ _ Hk).
    by case_bool_decide.
  - intros err. subst next. cbn [step].
    rewrite (onUpstream_error_live JSON_parse s u k t) by done.
    unfold onUpstreamError. cbn [client sockets log with_sockets with_client].
    split; [by case_bool_decide|].
    rewrite <- (alter_lookup (set_readyState CLOSING) _ _ _ Hk).
    by case_bool_decide.
Qed.

(** X7. An upstream that errors and then closes, as a failing socket
    does, takes the client down once.  In every state a session reaches,
    for the socket of a run that got its upstream: after its ['error']
    and its ['close'] an open client has been sent one
    [openai_connection_failed] event and [close()] has been called on it
    once, the second listener finding it already closing; a client that
    was not open is sent nothing and is not closed again.  The socket
    ends closed and the client holds no upstream. *)
Theorem X7_error_then_close_closes_once (req : Request) (trace : list Event)
    (t u : nat) (k : Socket) (err : JsError) (code : Z) (reason : string) :
  let s := reached JSON_parse MODEL_NAME deployment req trace in
  let next := step JSON_parse MODEL_NAME deployment in
  let s2 := next (next s (E_upstream u (U_error err))) (E_upstream u (U_close code reason)) in
  tasks s !! t = Some (Established u) ->
  sockets s !! u = Some k ->
  readyState k = OPEN \/ readyState k = CLOSING ->
  client s2 =
    set_upstream None
      (if bool_decide (client_readyState (client s) = OPEN)
       then hangup (push (Json (openai_connection_failed (message err))) (client s))
       else client s) /\
  sockets s2 = <[u := set_readyState CLOSED k]> (sockets s).
Proof.
  intros s next s2 Ht Hk Hrs.
  pose proof (invariant_reachable JSON_parse MODEL_NAME deployment req trace) as Hinv.
  change (invariant s) in Hinv.
  destruct (inv_established _ Hinv _ _ Ht) as (k0 & Hk0 & Hl).
  rewrite Hk in Hk0. injection Hk0 as <-.
  pose proof (inv_queue _ Hinv) as Hq.
  pose proof (lookup_lt_Some _ _ _ Hk) as Hlt.
  subst s2 next. cbn [step].
  rewrite (onUpstream_error_live JSON_parse s u k t) by done.
  set (s1 := onUpstreamError err _).
  assert (Hq1 : microtasks s1 = []).
  { subst s1. unfold onUpstreamError. simpl. by case_bool_decide. }
  assert (Hk1 : sockets s1 = <[u := set_readyState CLOSING k]> (sockets s)).
  { subst s1. unfold onUpstreamError. cbn [sockets log with_sockets with_client].
    rewrite <- (alter_lookup (set_readyState CLOSING) _ _ _ Hk). by case_bool_decide. }
  assert (Hc1 : client s1 =
    set_upstream None
      (if bool_decide (client_readyState (client s) = OPEN)
       then hangup (push (Json (openai_connection_failed (message err))) (client s))
       else client s)).
  { subst s1. unfold onUpstreamError. cbn [client log with_sockets with_client].
    by case_bool_decide. }
  rewrite (onUpstream_close_live JSON_parse s1 u (set_readyState CLOSING k) t);
    [|done|by rewrite Hk1, list_lookup_insert_eq|done|by right].
  unfold onUpstreamClose.
  assert (Hnot : bool_decide (client_readyState (client s1) = OPEN) = false).
  { apply bool_decide_eq_false_2. rewrite Hc1. by case_bool_decide. }
  cbn [client sockets log with_sockets with_client]. rewrite Hnot.
  cbn [client sockets log with_sockets with_client]. split.
  - rewrite Hc1. by case_bool_decide.
  - rewrite Hk1. rewrite (alter_lookup _ _ _ (set_readyState CLOSING k))
      by (by rewrite list_lookup_insert_eq).
    by rewrite list_insert_insert_eq.
Qed.

(** *** A client that has gone silent *)

(** X8. A client that answers no ping is terminated by the second
    sweep, and its upstream is closed only when its ['close'] event
    comes.  From any state in which the client is still registered and
    holds an open upstream: two sweeps in a row leave the client
    terminated with every upstream socket as it was, [terminate()]
    closing none; the ['close'] event that follows calls [close()] on the
    upstream the client holds and takes the client out of the sweep. *)
Theorem X8_silent_client_terminated_then_upstream_closed (s : Session) (u : nat)
    (k : Socket) (code : Z) :
  registered s = true ->
  upstream (client s) = Some u ->
  sockets s !! u = Some k ->
  readyState k = OPEN ->
  let s2 := run JSON_parse MODEL_NAME deployment s [E_heartbeat; E_heartbeat] in
  let s3 := step JSON_parse MODEL_NAME deployment s2 (E_close code) in
  terminated (client s2) = true /\
  sockets s2 = sockets s /\
  sockets s3 !! u = Some (shut k) /\
  registered s3 = false.
Proof.
  intros Hreg Hu Hk Hopen s2 s3. subst s3 s2. cbn [run fold_left step].
  destruct (heartbeat_registered s Hreg) as (Ha1 & _ & Hr1).
  destruct (frame_heartbeat s) as [Hk1 Hu1 _ _ _].
  set (s1 := heartbeat s) in *.
  destruct (heartbeat_registered s1 Hr1) as (_ & Ht2 & _).
  destruct (frame_heartbeat s1) as [Hk2 Hu2 _ _ _].
  set (s2 := heartbeat s1) in *.
  split; [|split; [|split]].
  - rewrite Ht2, Ha1. apply orb_true_r.
  - by rewrite Hk2, Hk1.
  - unfold onClose. apply closeUpstream_open; simpl; [|by rewrite Hk2, Hk1|done].
    by rewrite Hu2, Hu1.
  - unfold registered. rewrite onClose_client. done.
Qed.

(** *** A start that succeeds *)

(** The run after a token request that succeeded. *)
Lemma onFetch_success (s : Session) (t : nat) (r : FetchResult) (tok : option json) :
  tasks s !! t = Some AwaitMint ->
  (mintEphemeralToken_resume r).2 = Return tok ->
  let s' := onFetch t r s in
  client s' = client s /\
  sockets s' = sockets s ++ [mkSocket CONNECTING tok [] (connector_listeners t) 0] /\
  tasks s' = <[t := AwaitOpen (length (sockets s))]> (tasks s) /\
  microtasks s' = microtasks s /\ requests s' = requests s.
Proof.
  intros Ht Hr. unfold onFetch. rewrite Ht.
  destruct (mintEphemeralToken_resume r) as [logged result]. simpl in Hr. subst result.
  destruct (logs_only logged s) as (_ & Hc & Hk & Hts & Hq & Hrq).
  unfold openOpenAIRealtime. simpl. by rewrite Hc, Hk, Hts, Hq, Hrq.
Qed.


(** *** A command in a [Buffer] *)

Lemma onCommand_returns (msg : json) (s : Session) :
  msg <> JNull -> (onCommand MODEL_NAME msg s).2 = false.
Proof.
  intros Hm. unfold onCommand. rewrite (member_read msg "action" Hm).
  by repeat case_match.
Qed.

Lemma server_onMessage_Buf (text : string) (msg : json) (s : Session) :
  JSON_parse text = Some msg -> msg <> JNull ->
  onMessage JSON_parse MODEL_NAME Server (Buf text) s =
  onMessage JSON_parse MODEL_NAME Server (Str text) s.
Proof.
  intros Hparse Hm. unfold onMessage, server_onMessage. simpl. rewrite Hparse.
  pose proof (onCommand_returns msg s Hm) as Hret.
  destruct (onCommand MODEL_NAME msg s) as [s' thrown]. simpl in Hret. by subst thrown.
Qed.


(** *** Frames and transcripts in a row *)

Lemma run_cons (s : Session) (e : Event) (trace : list Event) :
  run JSON_parse MODEL_NAME deployment s (e :: trace)
  = run JSON_parse MODEL_NAME deployment (step JSON_parse MODEL_NAME deployment s e) trace.
Proof. done. Qed.

Lemma socket_eta (k : Socket) :
  mkSocket (readyState k) (token k) (sent k) (listeners k) (closes k) = k.
Proof. by destruct k. Qed.

(** X11. Audio reaches the upstream whole and in order.  From any state
    in which the client holds an open upstream: a run of binary frames,
    each taken for audio by the deployment, leaves on that upstream one
    append message per frame, in the order of arrival, after what had
    been transmitted before; nothing else of the session changes but that
    socket. *)
Theorem X11_audio_frames_in_order (s : Session) (u : nat) (k : Socket)
    (frames : list string) :
  upstream (client s) = Some u ->
  sockets s !! u = Some k ->
  readyState k = OPEN ->
  Forall (fun bytes => deployment = Route \/ JSON_parse bytes = None) frames ->
  let s' := run JSON_parse MODEL_NAME deployment s
              ((fun bytes => E_message (Buf bytes)) <$> frames) in
  sockets s' =
    <[u := mkSocket OPEN (token k) (sent k ++ (audioEvent <$> frames))
                    (listeners k) (closes k)]> (sockets s) /\
  client s' = client s /\ tasks s' = tasks s /\ requests s' = requests s /\
  console s' = console s.
Proof.
  intros Hu Hk Hopen Hframes. cbv zeta. revert s k Hu Hk Hopen.
  induction Hframes as [|bytes frames Hbytes _ IH]; intros s k Hu Hk Hopen.
  - simpl. rewrite app_nil_r, <- Hopen, socket_eta.
    by rewrite list_insert_id.
  - rewrite fmap_cons, run_cons. cbn [step].
    assert (Hs1 : onMessage JSON_parse MODEL_NAME deployment (Buf bytes) s
                  = forwardAudio bytes s).
    { unfold onMessage, server_onMessage. destruct deployment; [done|].
      destruct Hbytes as [?|Hp]; [done|]. simpl. by rewrite Hp. }
    rewrite Hs1.
    destruct (forwardAudio_spec bytes s) as [Hforward _].
    destruct Hforward as (u0 & k0 & Hu0 & Hk0 & _ & Hsockets & _ & Hc & Ht & _ & Hr & Hl).
    { unfold upstream_open. rewrite Hu, Hk. by apply bool_decide_eq_true. }
    rewrite Hu in Hu0. injection Hu0 as <-. rewrite Hk in Hk0. injection Hk0 as <-.
    set (s1 := forwardAudio bytes s) in *.
    pose proof (lookup_lt_Some _ _ _ Hk) as Hlt.
    destruct (IH s1 (transmit (audioEvent bytes) k)) as (Hk' & Hc' & Ht' & Hr' & Hl').
    + by rewrite Hc.
    + rewrite Hsockets. by apply list_lookup_insert_eq.
    + done.
    + rewrite Hk', Hc', Ht', Hr', Hl', Hsockets, list_insert_insert_eq.
      cbn [token sent listeners closes transmit fmap list_fmap].
      by rewrite <- app_assoc.
Qed.

(** X12. A message of an upstream is translated when, and only when,
    the bridge's listeners are registered on its socket.  In any state
    of a session, for an upstream socket that is open or closing: when
    the socket holds the connector's listeners and the bridge's (the run
    that made it has gone on after [await openOpenAIRealtime]), its
    ['message'] event is one call of the translator, whether or not the
    client still holds that socket; when it holds the connector's
    listeners only (the promise is resolved and the run has not gone on
    yet), the event reaches no listener and the message is lost: nothing
    is sent to the client and nothing is logged.  In both cases the
    continuations that are pending run once the event has been served.
    In every state a session reaches here, the socket of a run that got
    its upstream holds both sets of listeners. *)
Theorem X12_upstream_message_needs_bridge_listeners (s : Session) (t u : nat)
    (k : Socket) (data : string) :
  sockets s !! u = Some k ->
  readyState k = OPEN \/ readyState k = CLOSING ->
  (listeners k = connector_listeners t ++ bridge_listeners ->
     step JSON_parse MODEL_NAME deployment s (E_upstream u (U_message data))
       = drain (onUpstreamMessage JSON_parse data s)) /\
  (listeners k = connector_listeners t ->
     step JSON_parse MODEL_NAME deployment s (E_upstream u (U_message data))
       = drain s) /\
  (forall req trace t' u',
     let s0 := reached JSON_parse MODEL_NAME deployment req trace in
     tasks s0 !! t' = Some (Established u') ->
     exists k', sockets s0 !! u' = Some k' /\
                listeners k' = connector_listeners t' ++ bridge_listeners).
Proof.
  intros Hk Hrs.
  assert (Hsame : with_sockets (alter (set_readyState (readyState k)) u) s = s).
  { apply Session_eq; simpl; try done.
    rewrite (alter_lookup _ _ _ _ Hk). unfold set_readyState.
    by rewrite socket_eta, list_insert_id. }
  assert (Hstep :
    step JSON_parse MODEL_NAME deployment s (E_upstream u (U_message data))
    = drain (emit JSON_parse u (U_message data) s)).
  { cbn [step]. unfold onUpstream. rewrite Hk.
    destruct Hrs as [Hrs|Hrs]; rewrite Hrs in *; by rewrite Hsame. }
  split; [|split].
  - intros Hl. rewrite Hstep. unfold emit. rewrite Hk, Hl, listening_live. done.
  - intros Hl. rewrite Hstep. unfold emit. rewrite Hk, Hl, listening_connector. done.
  - intros req trace t' u' s0 Ht.
    apply (inv_established _ (invariant_reachable JSON_parse MODEL_NAME deployment req trace)
             _ _ Ht).
Qed.

End Further.

(* ===================================================================== *)
(** ** The outcomes of [mintEphemeralToken] *)
(* ===================================================================== *)

Lemma member_defined (v : option json) (k : string) (x : option json) :
  JS.member v k = Return x <->
  exists d, v = Some d /\ d <> JNull /\ x = JS.read d k.
Proof.
  split.
  - destruct v as [d|]; [|done]. intros H. exists d. split; [done|].
    assert (Hd : d <> JNull) by (by intros ->). split; [done|].
    unfold JS.read. by rewrite H.
  - intros (d & -> & Hd & ->). unfold JS.read. by destruct d.
Qed.

(** X13. How [mintEphemeralToken] ends once [fetch] has settled.  Every
    error it throws carries the prefix "Failed to mint token: ", and a
    response that is not [ok] and whose body can be read carries it
    twice, before the status text, its own error being caught and
    wrapped by its own [catch].  It returns exactly when the response is
    [ok], its body parses to something other than [null], and the body's
    [client_secret] is neither missing nor [null]; what it returns is
    [client_secret.value], which is [undefined] when the secret has no
    such member. *)
Theorem X13_mint_outcomes (r : FetchResult) :
  (forall err, (mintEphemeralToken_resume r).2 = Throw err ->
     exists cause, message err = mint_failed +:+ cause) /\
  (forall status statusText errorText data,
     r = Response false status statusText (Return errorText) data ->
     (mintEphemeralToken_resume r).2
       = Throw (Error (mint_failed +:+ mint_failed +:+ statusText))) /\
  (forall tok, (mintEphemeralToken_resume r).2 = Return tok <->
     exists status statusText text d secret,
       r = Response true status statusText text (Return d) /\
       d <> JNull /\ JS.read d "client_secret" = Some secret /\ secret <> JNull /\
       tok = JS.read secret "value").
Proof.
  split; [|split].
  - intros err. unfold mintEphemeralToken_resume.
    repeat case_match; simpl; intros [= <-]; eauto.
  - by intros status statusText errorText data ->.
  - intros tok. split.
    + unfold mintEphemeralToken_resume.
      destruct r as [err|[] status statusText text [d|err]];
        try (simpl; done); try (simpl; by destruct text).
      cbn [negb].
      destruct (JS.member (Some d) "client_secret") as [secret|] eqn:Hsecret;
        cbn [bind]; [|done].
      destruct (JS.member secret "value") as [value|] eqn:Hvalue; [|done].
      intros [= <-].
      apply member_defined in Hsecret as (d' & [= <-] & Hd & ->).
      apply member_defined in Hvalue as (sec & Hsec & Hnull & ->).
      by exists status, statusText, text, d, sec.
    + intros (status & statusText & text & d & secret & -> & Hd & Hsecret & Hnull & ->).
      unfold mintEphemeralToken_resume. cbn [negb].
      rewrite (proj2 (member_defined (Some d) "client_secret" (Some secret)))
        by (by exists d). cbn [bind].
      rewrite (proj2 (member_defined (Some secret) "value" (JS.read secret "value")))
        by (by exists secret). done.
Qed.

(* ===================================================================== *)
(** ** The audio of an append message, read back *)
(* ===================================================================== *)

(** The place of a character in a list of characters. *)
Fixpoint index_in (c : ascii) (cs : list ascii) : option N :=
  match cs with
  | [] => None
  | c' :: rest => if Ascii.eqb c c' then Some 0%N else N.succ <$> index_in c rest
  end.

Definition base64_index (c : ascii) : option N :=
  index_in c (list_ascii_of_string Base64.alphabet).

(** The bytes that a base64 text stands for (RFC 4648, with padding);
    [None] when it is not one. *)
Fixpoint base64_decode_chars (cs : list ascii) : option (list N) :=
  match cs with
  | [] => Some []
  | c1 :: c2 :: c3 :: c4 :: rest =>
      match base64_index c1, base64_index c2 with
      | Some i1, Some i2 =>
          let b1 := (i1 * 4 + i2 / 16)%N in
          if Ascii.eqb c3 Base64.pad then
            match Ascii.eqb c4 Base64.pad, rest with
            | true, [] => Some [b1]
            | _, _ => None
            end
          else
            match base64_index c3 with
            | Some i3 =>
                let b2 := ((i2 mod 16) * 16 + i3 / 4)%N in
                if Ascii.eqb c4 Base64.pad then
                  match rest with
                  | [] => Some [b1; b2]
                  | _ => None
                  end
                else
                  match base64_index c4, base64_decode_chars rest with
                  | Some i4, Some bs => Some (b1 :: b2 :: ((i3 mod 4) * 64 + i4)%N :: bs)
                  | _, _ => None
                  end
            | None => None
            end
      | _, _ => None
      end
  | _ => None
  end.

Definition base64_decode (text : string) : option string :=
  (fun bs => string_of_list_ascii (ascii_of_N <$> bs))
    <$> base64_decode_chars (list_ascii_of_string text).

Lemma list_ind3 {A} (P : list A -> Prop) :
  P [] -> (forall a, P [a]) -> (forall a b, P [a; b]) ->
  (forall a b c l, P l -> P (a :: b :: c :: l)) ->
  forall l, P l.
Proof.
  intros H0 H1 H2 H3 l.
  assert (H : P l /\ (forall a, P (a :: l)) /\ (forall a b, P (a :: b :: l))).
  { induction l as [|x l (IH0 & IH1 & IH2)]; [by auto|].
    split; [exact (IH1 x)|]. split; [exact (fun a => IH2 a x)|].
    intros a b. by apply H3. }
  apply H.
Qed.

Lemma sextet_index (n : N) :
  (n < 64)%N ->
  base64_index (Base64.sextet n) = Some n /\ Ascii.eqb (Base64.sextet n) Base64.pad = false.
Proof.
  intros Hn.
  assert (Hm : exists m, m < 64 /\ n = N.of_nat m).
  { exists (N.to_nat n). split; lia. }
  destruct Hm as (m & Hm & ->). clear Hn.
  do 64 (destruct m as [|m]; [by vm_compute|apply Nat.succ_lt_mono in Hm]).
  lia.
Qed.

(** Linear arithmetic with division and remainder by constants. *)
Ltac divlia := zify; Z.to_euclidean_division_equations; lia.

Lemma base64_decode_encode (bs : list N) :
  Forall (fun b => (b < 256)%N) bs ->
  base64_decode_chars (Base64.encode_bytes bs) = Some bs.
Proof.
  induction bs as [|a|a b|a b c bs IH] using list_ind3; intros Hbs.
  - done.
  - apply Forall_cons in Hbs as [Ha _].
    cbn [Base64.encode_bytes base64_decode_chars].
    destruct (sextet_index (a / 4)) as [-> _]; [divlia|].
    destruct (sextet_index ((a mod 4) * 16)) as [-> _]; [divlia|].
    rewrite Ascii.eqb_refl. do 2 f_equal. divlia.
  - apply Forall_cons in Hbs as [Ha Hbs]. apply Forall_cons in Hbs as [Hb _].
    cbn [Base64.encode_bytes base64_decode_chars].
    destruct (sextet_index (a / 4)) as [-> _]; [divlia|].
    destruct (sextet_index ((a mod 4) * 16 + b / 16)) as [-> _]; [divlia|].
    destruct (sextet_index ((b mod 16) * 4)) as [-> ->]; [divlia|].
    rewrite Ascii.eqb_refl. f_equal. f_equal; [divlia|]. f_equal. divlia.
  - apply Forall_cons in Hbs as [Ha Hbs]. apply Forall_cons in Hbs as [Hb Hbs].
    apply Forall_cons in Hbs as [Hc Hbs].
    cbn [Base64.encode_bytes base64_decode_chars app].
    destruct (sextet_index (a / 4)) as [-> _]; [divlia|].
    destruct (sextet_index ((a mod 4) * 16 + b / 16)) as [-> _]; [divlia|].
    destruct (sextet_index ((b mod 16) * 4 + c / 64)) as [-> ->]; [divlia|].
    destruct (sextet_index (c mod 64)) as [-> ->]; [divlia|].
    rewrite (IH Hbs). f_equal. f_equal; [divlia|]. f_equal; [divlia|]. f_equal. divlia.
Qed.

Lemma base64_length (bs : list N) :
  length (Base64.encode_bytes bs) = 4 * ((length bs + 2) / 3).
Proof.
  induction bs as [|a|a b|a b c bs IH] using list_ind3; try done.
  cbn [Base64.encode_bytes length app]. rewrite IH.
  replace (S (S (S (length bs))) + 2) with (length bs + 2 + 1 * 3) by lia.
  rewrite Nat.div_add by done. lia.
Qed.

Lemma length_string_of_list (cs : list ascii) :
  String.length (string_of_list_ascii cs) = length cs.
Proof. induction cs as [|c cs IH]; simpl; [done | by rewrite IH]. Qed.

Lemma length_list_of_string (s : string) :
  length (list_ascii_of_string s) = String.length s.
Proof. induction s as [|c s IH]; simpl; [done | by rewrite IH]. Qed.

(** X14. The append message carries the frame whole: its [audio] is a
    text of four characters for every three bytes of the frame, the last
    group padded, and read back as base64 it gives the bytes of the
    frame, each of them and in their order. *)
Theorem X14_audio_is_the_frame_in_base64 (bytes : string) :
  exists audio,
    JS.read (audioEvent bytes) "audio" = Some (JStr audio) /\
    base64_decode audio = Some bytes /\
    String.length audio = 4 * ((String.length bytes + 2) / 3).
Proof.
  exists (Base64.encode bytes). split; [done|].
  unfold base64_decode, Base64.encode.
  rewrite list_ascii_of_string_of_list_ascii. split.
  - rewrite base64_decode_encode.
    + simpl. f_equal.
      rewrite <- (string_of_list_ascii_of_string bytes) at 2. f_equal.
      induction (list_ascii_of_string bytes) as [|c cs IH]; simpl; [done|].
      rewrite ascii_N_embedding. f_equal. exact IH.
    + induction (list_ascii_of_string bytes) as [|c cs IH]; simpl; constructor;
        [apply N_ascii_bounded | exact IH].
  - by rewrite length_string_of_list, base64_length, length_map, length_list_of_string.
Qed.

(* ===================================================================== *)
(** ** The test page, a client of the bridge *)
(* ===================================================================== *)

(** The lines the page writes with [appendLog] from its ['message']
    listener, one constructor per call site, holding the values the
    line interpolates. *)
Inductive PageLog : Type :=
| P_Received (data : ClientPayload)
| P_Ready
| P_ServerError (error detail : option json)
| P_Transcription (text : option json)
| P_ReceivedJSON (parsedData : json)
| P_ReceivedRaw (data : ClientPayload).

(** [v[0]], read by the page on a truthy [v] only: the first element of
    an array, the member ["0"] of an object, the first character of a
    string, and [undefined] on a number or a boolean. *)
Definition at0 (v : option json) : Outcome (option json) :=
  match v with
  | None => Throw (JS.TypeError "undefined" "0")
  | Some JNull => Throw (JS.TypeError "null" "0")
  | Some (JArr items) => Return (head items)
  | Some (JObj ms) => Return (JS.lookup_member "0" ms)
  | Some (JStr (String c _)) => Return (Some (JStr (String c EmptyString)))
  | Some _ => Return undefined
  end.

(** The [if] chain of the listener on the parsed message. *)
Definition page_dispatch (parsedData : json) : Outcome PageLog :=
  bind (JS.member (Some parsedData) "ready") (fun ready =>
  if JS.truthy ready then Return P_Ready
  else
    let error := JS.read parsedData "error" in
    if JS.truthy error then Return (P_ServerError error (JS.read parsedData "detail"))
    else
      (* parsedData.choices && parsedData.choices[0] && parsedData.choices[0].text *)
      let choices := JS.read parsedData "choices" in
      bind (if JS.truthy choices then at0 choices else Return choices) (fun first =>
      bind (if JS.truthy first then JS.member first "text" else Return first) (fun text =>
      if JS.truthy text then Return (P_Transcription text)
      else Return (P_ReceivedJSON parsedData)))).

Section TestPage.

Variable JSON_parse : string -> option json.

(** [JSON.parse(event.data)] on what the bridge passed to
    [client.send]: the text of [JSON.stringify(v)] reads back as [v]. *)
Definition page_parse (data : ClientPayload) : option json :=
  match data with
  | Json v => Some v
  | Text text => JSON_parse text
  end.

(** [newWs.onmessage] *)
Definition page_onmessage (data : ClientPayload) : list PageLog :=
  P_Received data ::
  match page_parse data with
  | None => [P_ReceivedRaw data]
  | Some parsedData =>
      match page_dispatch parsedData with
      | Return line => [line]
      | Throw _ => [P_ReceivedRaw data]
      end
  end.


End TestPage.

(* ===================================================================== *)
(** ** The further properties on concrete sessions *)
(* ===================================================================== *)

(** Two starts, one after the other before either has its token, both
    brought up: two upstreams are open and the client holds the
    later. *)
Definition two_upstreams : list Event :=
  [E_message (Str start_command); E_message (Str start_command);
   E_fetch 0 minted; E_fetch 1 minted; E_upstream 0 U_open; E_upstream 1 U_open].

Lemma X3_upstream_closed_by_client_end_only_witness :
  let s := started Route in
  let later := [E_message (Buf "abc"); E_upstream 0 (U_message "hello"); E_heartbeat] in
  (exists k', sockets (example_run Route s later) !! 0 = Some k' /\
     token k' = Some (JStr "ek_1") /\ closes k' = 0) /\
  sockets (example_step Route s (E_error (Error "EPIPE"))) !! 0
    = Some (shut configured_socket).
Proof.
  destruct (X3_upstream_closed_by_client_end_only Parser.parse None Route (started Route))
    as [Hother Hend].
  split.
  - apply (Hother [E_message (Buf "abc"); E_upstream 0 (U_message "hello"); E_heartbeat]
             ltac:(by repeat constructor) 0 configured_socket eq_refl).
  - exact (Hend (E_error (Error "EPIPE")) 0 configured_socket eq_refl eq_refl).
Defined.

Lemma X4_upstream_closed_at_most_once_witness :
  let s := example_run Route (onConnect example_request)
             (successful_start ++ [E_error (Error "EPIPE"); E_close 1006]) in
  sockets s = [shut configured_socket] /\
  closes (shut configured_socket) <= 1 /\
  (readyState (shut configured_socket) = CLOSING \/
   readyState (shut configured_socket) = CLOSED).
Proof.
  destruct (X4_upstream_closed_at_most_once Parser.parse None Route example_request
              (successful_start ++ [E_error (Error "EPIPE"); E_close 1006])
              0 (shut configured_socket) eq_refl) as [Hle Hstate].
  split; [reflexivity|]. split; [exact Hle | exact (Hstate eq_refl)].
Defined.

Lemma X5_upstream_left_open_by_early_close_witness :
  let later := [E_upstream 0 (U_message "hello"); E_heartbeat; E_message (Buf "abc")] in
  let s2 := example_run Route (onConnect example_request)
              [E_message (Str start_command); E_fetch 0 minted;
               E_close 1001; E_upstream 0 U_open] in
  client_readyState (client s2) = CLOSED /\
  upstream (client s2) = Some 0 /\
  upstream_open s2 = true /\
  exists k', sockets (example_run Route s2 later) !! 0 = Some k' /\ closes k' = 0.
Proof.
  assert (Hlater : Forall (fun e => is_client_end e = false)
            [E_upstream 0 (U_message "hello"); E_heartbeat; E_message (Buf "abc")])
    by (by repeat constructor).
  destruct (X5_upstream_left_open_by_early_close Parser.parse None Route example_request
              [E_message (Str start_command); E_fetch 0 minted] 0 0 1001%Z _
              eq_refl Hlater)
    as (Hclosed & Hheld & Hopen & k & k2 & k' & Hk & _ & _ & Hk' & Hcloses).
  vm_compute in Hk. injection Hk as <-.
  vm_compute in Hclosed, Hheld, Hopen, Hk', Hcloses. vm_compute.
  split; [exact Hclosed|]. split; [exact Hheld|]. split; [exact Hopen|].
  exists k'. split; [exact Hk' | exact Hcloses].
Defined.

Lemma X6_any_established_upstream_ends_the_session_witness :
  let s := example_run Route (onConnect example_request) two_upstreams in
  let s' := example_step Route s (E_upstream 0 (U_close 1000 "")) in
  upstream (client s) = Some 1 /\
  upstream (client s') = None /\
  client_closes (client s') = 1 /\
  readyState <$> sockets s' = [CLOSED; OPEN].
Proof.
  destruct (X6_any_established_upstream_ends_the_session Parser.parse None Route
              example_request two_upstreams 0 0 configured_socket eq_refl eq_refl
              (or_introl eq_refl)) as [Hclose _].
  destruct (Hclose 1000%Z "") as [Hclient Hsockets].
  apply (f_equal upstream) in Hclient as Hheld.
  apply (f_equal client_closes) in Hclient as Hcalls.
  apply (f_equal (fmap readyState)) in Hsockets.
  vm_compute in Hheld, Hcalls, Hsockets. vm_compute.
  split; [reflexivity|]. split; [exact Hheld|]. split; [exact Hcalls | exact Hsockets].
Defined.

Lemma X7_error_then_close_closes_once_witness :
  let s := started Route in
  let s2 := example_run Route s
              [E_upstream 0 (U_error (Error "ECONNRESET")); E_upstream 0 (U_close 1006 "")] in
  client s2 =
    set_upstream None
      (hangup (push (Json (openai_connection_failed "ECONNRESET")) (client s))) /\
  sockets s2 = [set_readyState CLOSED configured_socket].
Proof.
  exact (X7_error_then_close_closes_once Parser.parse None Route example_request
           successful_start 0 0 configured_socket (Error "ECONNRESET") 1006%Z ""
           eq_refl eq_refl (or_introl eq_refl)).
Defined.

Lemma X8_silent_client_terminated_then_upstream_closed_witness :
  let s2 := example_run Route (started Route) [E_heartbeat; E_heartbeat] in
  let s3 := example_step Route s2 (E_close 1006) in
  terminated (client s2) = true /\
  sockets s2 = [configured_socket] /\
  sockets s3 !! 0 = Some (shut configured_socket) /\
  registered s3 = false.
Proof.
  exact (X8_silent_client_terminated_then_upstream_closed Parser.parse None Route
           (started Route) 0 configured_socket 1006%Z eq_refl eq_refl eq_refl eq_refl).
Defined.



Lemma X11_audio_frames_in_order_witness :
  let s := example_run Route (started Route)
             [E_message (Buf "abc"); E_message (Buf "{}"); E_message (Buf "def")] in
  sockets s =
    [transmit (audioEvent "def")
       (transmit (audioEvent "{}") (transmit (audioEvent "abc") configured_socket))] /\
  client s = client (started Route).
Proof.
  destruct (X11_audio_frames_in_order Parser.parse None Route (started Route) 0
              configured_socket ["abc"; "{}"; "def"] eq_refl eq_refl eq_refl)
    as (Hsockets & Hclient & _).
  - repeat constructor; by left.
  - split; [exact Hsockets | exact Hclient].
Defined.

(** The session between [resolve(ws)] and the run going on: the token
    is there, the socket has opened, the connector's ['open'] listener
    has sent the configuration and resolved the promise, and the
    continuation that registers the bridge's listeners is still
    queued. *)
Definition resolved_not_resumed : Session :=
  emit Parser.parse 0 U_open
    (with_sockets (alter (set_readyState OPEN) 0)
       (example_run Route (onConnect example_request)
          [E_message (Str start_command); E_fetch 0 minted])).

Lemma X12_upstream_message_needs_bridge_listeners_witness :
  let s := reached Parser.parse None Route example_request two_upstreams in
  let message := E_upstream 0 (U_message delta_event) in
  (upstream (client s) = Some 1 /\
   step Parser.parse None Route s message
     = drain (onUpstreamMessage Parser.parse delta_event s)) /\
  (microtasks resolved_not_resumed = [0] /\
   step Parser.parse None Route resolved_not_resumed message
     = drain resolved_not_resumed /\
   client_sent (client (drain resolved_not_resumed)) = [Json connected]).
Proof.
  split.
  - split; [by vm_compute|].
    destruct (X12_upstream_message_needs_bridge_listeners Parser.parse None Route
                (reached Parser.parse None Route example_request two_upstreams)
                0 0 configured_socket delta_event eq_refl (or_introl eq_refl))
      as [Htranslated _].
    exact (Htranslated eq_refl).
  - split; [by vm_compute|].
    destruct (X12_upstream_message_needs_bridge_listeners Parser.parse None Route
                resolved_not_resumed 0 0
                (mkSocket OPEN (Some (JStr "ek_1")) [session_config]
                   (connector_listeners 0) 0)
                delta_event eq_refl (or_introl eq_refl))
      as (_ & Hlost & _).
    split; [exact (Hlost eq_refl) | by vm_compute].
Defined.

Lemma X13_mint_outcomes_witness :
  (mintEphemeralToken_resume unauthorized).2
    = Throw (Error "Failed to mint token: Failed to mint token: Unauthorized") /\
  (mintEphemeralToken_resume minted).2 = Return (Some (JStr "ek_1")).
Proof.
  split.
  - destruct (X13_mint_outcomes unauthorized) as (_ & Hrefused & _).
    exact (Hrefused 401%Z "Unauthorized" "invalid key" _ eq_refl).
  - destruct (X13_mint_outcomes minted) as (_ & _ & Hreturns).
    apply Hreturns.
    exists 200%Z, "OK", (Return ""), (JObj [("client_secret", JObj [("value", JStr "ek_1")])]),
      (JObj [("value", JStr "ek_1")]).
    by repeat split.
Defined.

